(** * The byte fifo of [uart-buffered/src/uart_buffered.h]

    A shallow embedding of the single-producer/single-consumer ring buffer
    that backs the buffered UART driver: [struct fifo], [struct fifo_handle],
    the construction macros [FIFO_DEFINE], [FIFO_CAPACITY] and
    [FIFO_INITIALIZER], and the inline operations [fifo_capacity],
    [fifo_used], [fifo_full], [fifo_empty], [fifo_push], [fifo_peek] and
    [fifo_pop].

    C integers are mathematical integers with the wrap-around of each
    conversion written out; the storage is a list of bytes indexed with
    stdpp's lookup and insert, and an access outside it is an outcome of
    its own. *)

From Stdlib Require Import ZArith Lia List Bool String.
From stdpp Require Import base list.

Import ListNotations.
Local Open Scope Z_scope.

(** ** The target *)

(** What the header leaves to the build: the width of [size_t] and whether
    Zephyr's [__ASSERT] is compiled in ([CONFIG_ASSERT]).  [int] has 32 bits
    on every Zephyr target and [size_t] is at least as wide, so a [u16_t]
    operand is promoted to [int] without loss and the difference of two of
    them never overflows [int]. *)
Class Target := {
  size_bits : Z;
  size_bits_ge_32 : 32 <= size_bits;
  CONFIG_ASSERT : bool
}.

(** ** Data *)

Definition u8_t := Byte.byte.

(** Conversion to [u16_t] and to [size_t]. *)
Definition to_u16 (x : Z) : Z := x mod 2 ^ 16.

Definition to_size_t `{Target} (x : Z) : Z := x mod 2 ^ size_bits.

(** [struct fifo]: two free-running 16-bit counters and the flexible array
    member [buf], whose length is what [FIFO_DEFINE] reserved for it. *)
Record fifo := {
  write : Z;
  read : Z;
  buf : list u8_t
}.

(** [struct fifo_handle].  The pointer [fifo] is followed by passing the
    pointee next to the handle; [device] and [signal] are not used by the
    fifo operations. *)
Record fifo_handle := {
  capacity_mask : Z
}.

(** How a call of one of the inline functions ends. *)
Inductive outcome (A : Type) : Type :=
| Returned (a : A)
| AssertFailed (msg : string)
| OutOfBounds.

Arguments Returned {A} a.
Arguments AssertFailed {A} msg.
Arguments OutOfBounds {A}.

(** Modelled from the spec: the macro [__ASSERT(test, msg)] comes from
    Zephyr's headers, not from this repository.  A failed assertion is
    fatal, the call does not return and hands no result to its caller; with
    [CONFIG_ASSERT] off the macro expands to nothing. *)
Definition __ASSERT `{Target} {A} (test : bool) (msg : string)
    (k : outcome A) : outcome A :=
  if CONFIG_ASSERT && negb test then AssertFailed msg else k.

(** [buf[i]] as an rvalue and as an assignment target. *)
Definition load (b : list u8_t) (i : Z) : option u8_t :=
  b !! Z.to_nat i.

Definition store (b : list u8_t) (i : Z) (v : u8_t) : option (list u8_t) :=
  if i <? Z.of_nat (length b) then Some (<[Z.to_nat i := v]> b) else None.

(** ** Construction macros *)

(** [offsetof(struct fifo, buf)]: two [u16_t] fields come first. *)
Definition offsetof_fifo_buf : Z := 4.

(** Modelled from the spec: the macro [BUILD_ASSERT_MSG(test, msg)] comes
    from Zephyr's headers, not from this repository.  The build is rejected
    when [test] is false; [None] stands for a rejected build. *)
Definition BUILD_ASSERT_MSG {A} (test : bool) (msg : string) (built : A)
    : option A :=
  if test then Some built else None.

(** The condition [FIFO_DEFINE] hands to [BUILD_ASSERT_MSG].  [size] is an
    integer constant of type [int]; bitwise [&] on two's complement is
    [Z.land]. *)
Definition fifo_size_ok (size : Z) : bool :=
  Z.land size (size - 1) =? 0.

(** The compiler refuses an object of more than [PTRDIFF_MAX] bytes, that
    is of [2^(size_bits-1)] bytes or more. *)
Definition object_fits `{Target} (bytes : Z) : bool :=
  bytes <? 2 ^ (size_bits - 1).

(** [FIFO_DEFINE(name, size)]: the array [name], of
    [offsetof(struct fifo, buf) + (size)] bytes, and the build assertion.
    What is built is [sizeof(name)]. *)
Definition FIFO_DEFINE `{Target} (size : Z) : option Z :=
  if object_fits (offsetof_fifo_buf + size) then
    BUILD_ASSERT_MSG (fifo_size_ok size) "fifo size must be a power of 2"
      (to_size_t (offsetof_fifo_buf + size))
  else None.

(** [FIFO_CAPACITY(name)], from [sizeof(name)]. *)
Definition FIFO_CAPACITY `{Target} (sizeof_name : Z) : Z :=
  to_size_t (sizeof_name - offsetof_fifo_buf).

(** [FIFO_INITIALIZER(fifo_name, signal_name)], from [sizeof(fifo_name)]. *)
Definition FIFO_INITIALIZER `{Target} (sizeof_name : Z) : fifo_handle :=
  {| capacity_mask := to_size_t (FIFO_CAPACITY sizeof_name - 1) |}.

(** ** The inline operations *)

Definition fifo_capacity `{Target} (h : fifo_handle) : Z :=
  to_size_t (capacity_mask h + 1).

(** [write - read] is computed in [int] after promotion and only then
    converted to the return type [size_t]. *)
Definition fifo_used `{Target} (f : fifo) : Z :=
  to_size_t (write f - read f).

Definition fifo_full `{Target} (h : fifo_handle) (f : fifo) : bool :=
  fifo_capacity h <=? fifo_used f.

Definition fifo_empty `{Target} (f : fifo) : bool :=
  fifo_used f =? 0.

Definition fifo_push `{Target} (h : fifo_handle) (f : fifo) (val : u8_t)
    : outcome fifo :=
  __ASSERT (negb (fifo_full h f)) "push to full fifo"
    (match store (buf f) (Z.land (write f) (capacity_mask h)) val with
     | Some b' =>
         Returned {| write := to_u16 (write f + 1); read := read f; buf := b' |}
     | None => OutOfBounds
     end).

Definition fifo_peek `{Target} (h : fifo_handle) (f : fifo)
    : outcome (u8_t * fifo) :=
  __ASSERT (negb (fifo_empty f)) "peek from empty fifo"
    (match load (buf f) (Z.land (read f) (capacity_mask h)) with
     | Some v => Returned (v, f)
     | None => OutOfBounds
     end).

Definition fifo_pop `{Target} (h : fifo_handle) (f : fifo)
    : outcome (u8_t * fifo) :=
  __ASSERT (negb (fifo_empty f)) "pop from empty fifo"
    (match load (buf f) (Z.land (read f) (capacity_mask h)) with
     | Some v =>
         Returned
           (v, {| write := write f; read := to_u16 (read f + 1); buf := buf f |})
     | None => OutOfBounds
     end).

(** ** Callers *)

(** A producer and a consumer as a sequence of calls. *)
Inductive op : Type :=
| Push (val : u8_t)
| Pop.

(** Runs the calls in order and collects what the pops return; the first
    call that does not return ends the run with its outcome. *)
Fixpoint exec `{Target} (h : fifo_handle) (f : fifo) (ops : list op)
    : outcome (fifo * list u8_t) :=
  match ops with
  | [] => Returned (f, [])
  | Push v :: ops' =>
      match fifo_push h f v with
      | Returned f' => exec h f' ops'
      | AssertFailed m => AssertFailed m
      | OutOfBounds => OutOfBounds
      end
  | Pop :: ops' =>
      match fifo_pop h f with
      | Returned (v, f') =>
          match exec h f' ops' with
          | Returned (f'', out) => Returned (f'', v :: out)
          | AssertFailed m => AssertFailed m
          | OutOfBounds => OutOfBounds
          end
      | AssertFailed m => AssertFailed m
      | OutOfBounds => OutOfBounds
      end
  end.

(** The callers' discipline: [fifo_full] is false before every push and
    [fifo_empty] is false before every pop.  Nothing is required after a
    call that does not return. *)
Fixpoint respects `{Target} (h : fifo_handle) (f : fifo) (ops : list op)
    : bool :=
  match ops with
  | [] => true
  | Push v :: ops' =>
      negb (fifo_full h f) &&
      match fifo_push h f v with
      | Returned f' => respects h f' ops'
      | _ => true
      end
  | Pop :: ops' =>
      negb (fifo_empty f) &&
      match fifo_pop h f with
      | Returned (_, f') => respects h f' ops'
      | _ => true
      end
  end.

(** The bytes handed to [fifo_push], in call order. *)
Fixpoint pushed (ops : list op) : list u8_t :=
  match ops with
  | [] => []
  | Push v :: ops' => v :: pushed ops'
  | Pop :: ops' => pushed ops'
  end.

(** ** Specification vocabulary *)

Definition is_pow2 (n : Z) : Prop := exists k, 0 <= k /\ n = 2 ^ k.

(** A handle as [FIFO_INITIALIZER] makes it for a power-of-two size. *)
Definition pow2_handle `{Target} (h : fifo_handle) (k : Z) : Prop :=
  0 <= k < size_bits /\ capacity_mask h = 2 ^ k - 1.

(** The fields of a [struct fifo] laid over storage of the handle's
    capacity. *)
Definition fifo_wf `{Target} (h : fifo_handle) (f : fifo) : Prop :=
  0 <= write f < 2 ^ 16 /\ 0 <= read f < 2 ^ 16 /\
  Z.of_nat (length (buf f)) = fifo_capacity h.

(** The bytes [n] successive pops starting at counter value [pos] read. *)
Fixpoint take_from (h : fifo_handle) (b : list u8_t) (pos : Z) (n : nat)
    : list u8_t :=
  match n with
  | O => []
  | S n' =>
      default Byte.x00 (load b (Z.land pos (capacity_mask h)))
        :: take_from h b (to_u16 (pos + 1)) n'
  end.

(** The buffered bytes, oldest first: those between the two counters,
    whose distance is taken on 16 bits. *)
Definition fifo_contents (h : fifo_handle) (f : fifo) : list u8_t :=
  take_from h (buf f) (read f) (Z.to_nat (to_u16 (write f - read f))).

(** What pushes and pops keep true of a fifo: no more bytes are buffered
    than the storage holds. *)
Definition fifo_inv `{Target} (h : fifo_handle) (f : fifo) : Prop :=
  fifo_wf h f /\ to_u16 (write f - read f) <= fifo_capacity h.

(** Two targets to compute on. *)
Definition ilp32_assert : Target :=
  {| size_bits := 32;
     size_bits_ge_32 := ltac:(lia);
     CONFIG_ASSERT := true |}.

Definition ilp32_noassert : Target :=
  {| size_bits := 32;
     size_bits_ge_32 := ltac:(lia);
     CONFIG_ASSERT := false |}.

(** The storage [FIFO_DEFINE] reserves is static, hence zeroed: counters at
    0 over [capacity] bytes. *)
Definition fifo_zeroed (capacity : Z) : fifo :=
  {| write := 0; read := 0; buf := repeat Byte.x00 (Z.to_nat capacity) |}.

(** An empty fifo whose counters both stand at [pos]. *)
Definition fifo_empty_at (pos capacity : Z) : fifo :=
  {| write := pos; read := pos; buf := repeat Byte.x00 (Z.to_nat capacity) |}.

(** A capacity-8 handle and a state of it holding two bytes. *)
Definition handle8 : fifo_handle := {| capacity_mask := 7 |}.

Definition fifo8_two : fifo :=
  {| write := 3; read := 1;
     buf := [Byte.x10; Byte.x11; Byte.x12; Byte.x13;
             Byte.x14; Byte.x15; Byte.x16; Byte.x17] |}.

(** [n] rounds of one push and one pop. *)
Fixpoint churn (n : nat) (v : u8_t) : list op :=
  match n with
  | O => []
  | S n' => Push v :: Pop :: churn n' v
  end.

(** ** Handles with their references *)

(** What [&name.rx.signal] and [&name.tx.signal] point at in the
    [struct uart_buffered] called [name]. *)
Inductive signal_ref : Type :=
| RxSignal (name : string)
| TxSignal (name : string).

(** [struct fifo_handle] with all four members.  [fifo_ref] is the
    identifier of the [FIFO_DEFINE]d array the pointer [fifo] is the address
    of, [masks] carries [capacity_mask], and a NULL [device] is [None]. *)
Record fifo_handle_refs := {
  fifo_ref : string;
  masks : fifo_handle;
  device : option string;
  signal : signal_ref
}.

Record struct_uart_buffered_rx_handle := {
  rx_handle_fifo : fifo_handle_refs
}.

Record struct_uart_buffered_tx_handle := {
  tx_handle_fifo : fifo_handle_refs
}.

(** [struct uart_buffered_rx] and [struct uart_buffered_tx]; the embedded
    [struct k_poll_signal] is Zephyr's and is what [signal] refers to. *)
Record uart_buffered_rx := {
  rx_fifo : fifo_handle_refs;
  rx_timer : string
}.

Record uart_buffered_tx := {
  tx_fifo : fifo_handle_refs
}.

Record uart_buffered := {
  rx : uart_buffered_rx;
  tx : uart_buffered_tx
}.

Definition uart_buffered_rx_handle (uart : uart_buffered)
    : struct_uart_buffered_rx_handle :=
  {| rx_handle_fifo := rx_fifo (rx uart) |}.

Definition uart_buffered_tx_handle (uart : uart_buffered)
    : struct_uart_buffered_tx_handle :=
  {| tx_handle_fifo := tx_fifo (tx uart) |}.

(** [FIFO_INITIALIZER(fifo_name, signal_name)] with its pointers. *)
Definition FIFO_INITIALIZER_refs `{Target} (fifo_name : string)
    (sizeof_name : Z) (signal_name : signal_ref) : fifo_handle_refs :=
  {| fifo_ref := fifo_name;
     masks := FIFO_INITIALIZER sizeof_name;
     device := None;
     signal := signal_name |}.

(** [UART_BUFFERED_DEFINE(name, rx_fifo, tx_fifo)]: the object [name].  The
    two arrays are given by identifier and [sizeof]. *)
Definition UART_BUFFERED_DEFINE `{Target} (name : string)
    (rx_fifo_name : string) (sizeof_rx : Z)
    (tx_fifo_name : string) (sizeof_tx : Z) : uart_buffered :=
  {| rx := {| rx_fifo :=
                FIFO_INITIALIZER_refs rx_fifo_name sizeof_rx (RxSignal name);
              rx_timer := (name ++ "_timer")%string |};
     tx := {| tx_fifo :=
                FIFO_INITIALIZER_refs tx_fifo_name sizeof_tx (TxSignal name)
           |} |}.

(** The fifo objects of a program, by identifier. *)
Definition memory := string -> fifo.

Definition mem_set (m : memory) (x : string) (f : fifo) : memory :=
  fun y => if String.eqb y x then f else m y.

(** [fifo_push] and [fifo_pop] on the object the handle points at. *)
Definition fifo_push_at `{Target} (hr : fifo_handle_refs) (m : memory)
    (val : u8_t) : outcome memory :=
  match fifo_push (masks hr) (m (fifo_ref hr)) val with
  | Returned f' => Returned (mem_set m (fifo_ref hr) f')
  | AssertFailed msg => AssertFailed msg
  | OutOfBounds => OutOfBounds
  end.

Definition fifo_pop_at `{Target} (hr : fifo_handle_refs) (m : memory)
    : outcome (u8_t * memory) :=
  match fifo_pop (masks hr) (m (fifo_ref hr)) with
  | Returned (v, f') => Returned (v, mem_set m (fifo_ref hr) f')
  | AssertFailed msg => AssertFailed msg
  | OutOfBounds => OutOfBounds
  end.

(** * Properties *)

Section Fifo.
Context {T : Target}.

(** ** Arithmetic of the conversions *)

Lemma size_pow_ge : 4294967296 <= 2 ^ size_bits.
Proof.
  change 4294967296 with (2 ^ 32).
  apply Z.pow_le_mono_r; [lia | exact size_bits_ge_32].
Qed.

Lemma to_size_t_small (x : Z) : 0 <= x < 2 ^ size_bits -> to_size_t x = x.
Proof. intros Hx. unfold to_size_t. now apply Z.mod_small. Qed.

Lemma to_size_t_neg (x : Z) :
  - 2 ^ size_bits <= x < 0 -> to_size_t x = x + 2 ^ size_bits.
Proof.
  intros Hx. unfold to_size_t.
  rewrite <- (Z_mod_plus_full x 1 (2 ^ size_bits)).
  rewrite Z.mul_1_l. apply Z.mod_small. lia.
Qed.

Lemma to_size_t_range (x : Z) : 0 <= to_size_t x < 2 ^ size_bits.
Proof.
  unfold to_size_t. apply Z.mod_pos_bound.
  pose proof size_pow_ge. lia.
Qed.

Lemma to_u16_range (x : Z) : 0 <= to_u16 x < 65536.
Proof. unfold to_u16. change (2 ^ 16) with 65536. apply Z.mod_pos_bound. lia. Qed.

(** What the promoted subtraction gives, by the order of the counters. *)
Lemma fifo_used_ge (f : fifo) :
  0 <= read f <= write f -> write f < 65536 ->
  fifo_used f = write f - read f.
Proof.
  intros Hr Hw. unfold fifo_used. apply to_size_t_small.
  pose proof size_pow_ge. lia.
Qed.

Lemma fifo_used_lt (f : fifo) :
  0 <= write f < read f -> read f < 65536 ->
  fifo_used f = 2 ^ size_bits + write f - read f.
Proof.
  intros Hw Hr. unfold fifo_used. rewrite to_size_t_neg.
  - lia.
  - pose proof size_pow_ge. lia.
Qed.

(** ** Masks of power-of-two capacities *)

Lemma land_pow2_mask (x k : Z) : 0 <= k -> Z.land x (2 ^ k - 1) = x mod 2 ^ k.
Proof.
  intros Hk. rewrite <- Z.land_ones by exact Hk.
  now rewrite Z.ones_equiv, <- Z.sub_1_r.
Qed.

Lemma pow2_handle_capacity (h : fifo_handle) (k : Z) :
  pow2_handle h k -> fifo_capacity h = 2 ^ k.
Proof.
  intros [Hk Hm]. unfold fifo_capacity. rewrite Hm.
  replace (2 ^ k - 1 + 1) with (2 ^ k) by lia.
  apply to_size_t_small. split.
  - apply Z.pow_nonneg. lia.
  - apply Z.pow_lt_mono_r; lia.
Qed.

Lemma pow2_handle_index (h : fifo_handle) (k x : Z) :
  pow2_handle h k ->
  0 <= Z.land x (capacity_mask h) < fifo_capacity h.
Proof.
  intros Hh. rewrite (pow2_handle_capacity h k Hh).
  destruct Hh as [Hk Hm]. rewrite Hm, land_pow2_mask by lia.
  apply Z.mod_pos_bound. apply Z.pow_pos_nonneg; lia.
Qed.

(** ** Storage accesses inside the array *)

Lemma load_in_bounds (b : list u8_t) (i : Z) :
  0 <= i < Z.of_nat (length b) -> exists v, load b i = Some v.
Proof.
  intros Hi. unfold load.
  destruct (lookup_lt_is_Some_2 b (Z.to_nat i)) as [v Hv]; [lia | eauto].
Qed.

Lemma store_in_bounds (b : list u8_t) (i : Z) (v : u8_t) :
  i < Z.of_nat (length b) -> store b i v = Some (<[Z.to_nat i := v]> b).
Proof.
  intros Hi. unfold store.
  destruct (Z.ltb_spec i (Z.of_nat (length b))); [reflexivity | lia].
Qed.

Lemma wf_load (h : fifo_handle) (f : fifo) (k x : Z) :
  pow2_handle h k -> fifo_wf h f ->
  exists v, load (buf f) (Z.land x (capacity_mask h)) = Some v.
Proof.
  intros Hh (_ & _ & Hlen). apply load_in_bounds. rewrite Hlen.
  now apply pow2_handle_index with (k := k).
Qed.

Lemma wf_store (h : fifo_handle) (f : fifo) (k x : Z) (v : u8_t) :
  pow2_handle h k -> fifo_wf h f ->
  store (buf f) (Z.land x (capacity_mask h)) v =
  Some (<[Z.to_nat (Z.land x (capacity_mask h)) := v]> (buf f)).
Proof.
  intros Hh (_ & _ & Hlen). apply store_in_bounds. rewrite Hlen.
  now apply pow2_handle_index with (k := k).
Qed.

(** ** The assertion *)

Lemma assert_holds {A} (test : bool) (msg : string) (k : outcome A) :
  test = true -> __ASSERT test msg k = k.
Proof. intros ->. unfold __ASSERT. now rewrite andb_false_r. Qed.

Lemma assert_cases {A} (test : bool) (msg : string) (k : outcome A) :
  (__ASSERT test msg k = k /\ (CONFIG_ASSERT = false \/ test = true)) \/
  (__ASSERT test msg k = AssertFailed msg /\
   CONFIG_ASSERT = true /\ test = false).
Proof.
  unfold __ASSERT. destruct CONFIG_ASSERT, test; simpl; auto.
Qed.

End Fifo.

(** * Full and empty *)




(** * The three operations one call at a time *)

Section Calls.
Context {T : Target}.
Variables (h : fifo_handle) (k : Z).
Hypothesis Hh : pow2_handle h k.

Lemma fifo_push_not_full (f : fifo) (v : u8_t) :
  fifo_wf h f -> fifo_full h f = false ->
  fifo_push h f v =
  Returned {| write := to_u16 (write f + 1);
              read := read f;
              buf := <[Z.to_nat (Z.land (write f) (capacity_mask h)) := v]>
                       (buf f) |}.
Proof.
  intros Hwf Hfull. unfold fifo_push.
  rewrite assert_holds by now rewrite Hfull.
  now rewrite (wf_store h f k (write f) v Hh Hwf).
Qed.

Lemma fifo_peek_not_empty (f : fifo) :
  fifo_wf h f -> fifo_empty f = false ->
  exists v, load (buf f) (Z.land (read f) (capacity_mask h)) = Some v /\
            fifo_peek h f = Returned (v, f).
Proof.
  intros Hwf Hne. destruct (wf_load h f k (read f) Hh Hwf) as [v Hv].
  exists v. split; [exact Hv |]. unfold fifo_peek.
  rewrite assert_holds by now rewrite Hne. now rewrite Hv.
Qed.

Lemma fifo_pop_not_empty (f : fifo) :
  fifo_wf h f -> fifo_empty f = false ->
  exists v, load (buf f) (Z.land (read f) (capacity_mask h)) = Some v /\
            fifo_pop h f =
            Returned (v, {| write := write f;
                            read := to_u16 (read f + 1);
                            buf := buf f |}).
Proof.
  intros Hwf Hne. destruct (wf_load h f k (read f) Hh Hwf) as [v Hv].
  exists v. split; [exact Hv |]. unfold fifo_pop.
  rewrite assert_holds by now rewrite Hne. now rewrite Hv.
Qed.

(** Without the precondition a call still stays inside the storage: it
    returns, or the assertion stops it. *)
Lemma fifo_push_cases (f : fifo) (v : u8_t) :
  fifo_wf h f ->
  (exists f', fifo_push h f v = Returned f') \/
  (CONFIG_ASSERT = true /\ fifo_full h f = true /\
   fifo_push h f v = AssertFailed "push to full fifo").
Proof.
  intros Hwf. unfold fifo_push.
  rewrite (wf_store h f k (write f) v Hh Hwf).
  destruct (assert_cases (A := fifo) (negb (fifo_full h f)) "push to full fifo"
              (Returned {| write := to_u16 (write f + 1); read := read f;
                 buf := <[Z.to_nat (Z.land (write f) (capacity_mask h)) := v]>
                          (buf f) |}))
    as [[-> _] | (-> & Ha & Ht)].
  - left. eauto.
  - right. apply negb_false_iff in Ht. auto.
Qed.

Lemma fifo_peek_cases (f : fifo) :
  fifo_wf h f ->
  (exists v, fifo_peek h f = Returned (v, f)) \/
  (CONFIG_ASSERT = true /\ fifo_empty f = true /\
   fifo_peek h f = AssertFailed "peek from empty fifo").
Proof.
  intros Hwf. unfold fifo_peek.
  destruct (wf_load h f k (read f) Hh Hwf) as [v ->].
  destruct (assert_cases (A := u8_t * fifo) (negb (fifo_empty f))
              "peek from empty fifo" (Returned (v, f)))
    as [[-> _] | (-> & Ha & Ht)].
  - left. eauto.
  - right. apply negb_false_iff in Ht. auto.
Qed.

Lemma fifo_pop_cases (f : fifo) :
  fifo_wf h f ->
  (exists v f', fifo_pop h f = Returned (v, f')) \/
  (CONFIG_ASSERT = true /\ fifo_empty f = true /\
   fifo_pop h f = AssertFailed "pop from empty fifo").
Proof.
  intros Hwf. unfold fifo_pop.
  destruct (wf_load h f k (read f) Hh Hwf) as [v ->].
  destruct (assert_cases (A := u8_t * fifo) (negb (fifo_empty f))
              "pop from empty fifo"
              (Returned (v, {| write := write f; read := to_u16 (read f + 1);
                               buf := buf f |})))
    as [[-> _] | (-> & Ha & Ht)].
  - left. eauto.
  - right. apply negb_false_iff in Ht. auto.
Qed.

End Calls.

Lemma handle8_pow2 `{Target} : pow2_handle handle8 3.
Proof. pose proof size_bits_ge_32. split; [lia | reflexivity]. Qed.

Lemma fifo8_two_wf : @fifo_wf ilp32_assert handle8 fifo8_two.
Proof. repeat split; vm_compute; congruence. Qed.

(** When an assertion stops what follows it. *)
Lemma assert_failed_iff `{Target} {A} (test : bool) (msg m : string)
    (k : outcome A) :
  (forall m', k <> AssertFailed m') ->
  (__ASSERT test msg k = AssertFailed m <->
   m = msg /\ CONFIG_ASSERT = true /\ test = false).
Proof.
  intros Hk. unfold __ASSERT. destruct CONFIG_ASSERT, test; simpl; split.
  - intros Hf. now apply Hk in Hf.
  - intros (_ & _ & Hf). discriminate Hf.
  - intros Hf. injection Hf as <-. auto.
  - intros (-> & _). reflexivity.
  - intros Hf. now apply Hk in Hf.
  - intros (_ & Hf & _). discriminate Hf.
  - intros Hf. now apply Hk in Hf.
  - intros (_ & Hf & _). discriminate Hf.
Qed.

(** C5: [fifo_push] asserts not-full, [fifo_peek] and [fifo_pop] assert
    not-empty, as fatal guards: on every handle and state a call is stopped
    by an assertion exactly when assertions are compiled in and its
    precondition is violated, and then with its own message, so that under
    the precondition the assertion does not fire.  On a fifo of a
    power-of-two capacity a call under its precondition returns, and every
    call either returns its plain result (the fifo, or a byte with the
    fifo) or is stopped by its assertion; with assertions compiled out it
    always returns: no error value reaches the caller. *)
Theorem fifo_assert_guards `{Target} (h : fifo_handle) (f : fifo) :
  (forall v m,
     fifo_push h f v = AssertFailed m <->
     m = "push to full fifo"%string /\
     CONFIG_ASSERT = true /\ fifo_full h f = true) /\
  (forall m,
     fifo_peek h f = AssertFailed m <->
     m = "peek from empty fifo"%string /\
     CONFIG_ASSERT = true /\ fifo_empty f = true) /\
  (forall m,
     fifo_pop h f = AssertFailed m <->
     m = "pop from empty fifo"%string /\
     CONFIG_ASSERT = true /\ fifo_empty f = true) /\
  (forall k, pow2_handle h k -> fifo_wf h f ->
     (fifo_full h f = false ->
      forall v, exists f', fifo_push h f v = Returned f') /\
     (fifo_empty f = false ->
      (exists v, fifo_peek h f = Returned (v, f)) /\
      (exists v f', fifo_pop h f = Returned (v, f'))) /\
     (forall v,
        (exists f', fifo_push h f v = Returned f') \/
        (CONFIG_ASSERT = true /\ fifo_full h f = true /\
         fifo_push h f v = AssertFailed "push to full fifo")) /\
     ((exists v, fifo_peek h f = Returned (v, f)) \/
      (CONFIG_ASSERT = true /\ fifo_empty f = true /\
       fifo_peek h f = AssertFailed "peek from empty fifo")) /\
     ((exists v f', fifo_pop h f = Returned (v, f')) \/
      (CONFIG_ASSERT = true /\ fifo_empty f = true /\
       fifo_pop h f = AssertFailed "pop from empty fifo")) /\
     (CONFIG_ASSERT = false ->
      (forall v, exists f', fifo_push h f v = Returned f') /\
      (exists v, fifo_peek h f = Returned (v, f)) /\
      (exists v f', fifo_pop h f = Returned (v, f')))).
Proof.
  split; [| split; [| split]].
  - intros v m. unfold fifo_push. rewrite assert_failed_iff.
    + now rewrite negb_false_iff.
    + intros m'. destruct (store _ _ _); discriminate.
  - intros m. unfold fifo_peek. rewrite assert_failed_iff.
    + now rewrite negb_false_iff.
    + intros m'. destruct (load _ _); discriminate.
  - intros m. unfold fifo_pop. rewrite assert_failed_iff.
    + now rewrite negb_false_iff.
    + intros m'. destruct (load _ _); discriminate.
  - intros k Hh Hwf. split; [| split; [| split; [| split; [| split]]]].
    + intros Hfull v.
      rewrite (fifo_push_not_full h k Hh f v Hwf Hfull). eauto.
    + intros Hne. split.
      * destruct (fifo_peek_not_empty h k Hh f Hwf Hne) as (v & _ & Hv).
        eauto.
      * destruct (fifo_pop_not_empty h k Hh f Hwf Hne) as (v & _ & Hv).
        eauto.
    + intros v. now apply fifo_push_cases with (k := k).
    + now apply fifo_peek_cases with (k := k).
    + now apply fifo_pop_cases with (k := k).
    + intros Ha. split; [| split].
      * intros v.
        destruct (fifo_push_cases h k Hh f v Hwf) as [Hr | (Ht & _)];
          [exact Hr | congruence].
      * destruct (fifo_peek_cases h k Hh f Hwf) as [Hr | (Ht & _)];
          [exact Hr | congruence].
      * destruct (fifo_pop_cases h k Hh f Hwf) as [Hr | (Ht & _)];
          [exact Hr | congruence].
Qed.

(** The guards at the capacity-8 state holding two bytes, where a push and
    a pop both return, and at a full and at an empty state, where the
    assertions stop them. *)
Lemma fifo_assert_guards_witness :
  let full := {| write := 8; read := 0; buf := buf fifo8_two |} in
  @pow2_handle ilp32_assert handle8 3 /\
  @fifo_wf ilp32_assert handle8 fifo8_two /\
  (exists f', @fifo_push ilp32_assert handle8 fifo8_two Byte.x2a = Returned f') /\
  (exists v f', @fifo_pop ilp32_assert handle8 fifo8_two = Returned (v, f')) /\
  @fifo_push ilp32_assert handle8 full Byte.x2a =
    AssertFailed "push to full fifo" /\
  @fifo_pop ilp32_assert handle8 (fifo_zeroed 8) =
    AssertFailed "pop from empty fifo" /\
  @fifo_peek ilp32_assert handle8 (fifo_zeroed 8) =
    AssertFailed "peek from empty fifo".
Proof.
  intros full.
  split; [exact handle8_pow2 |]. split; [exact fifo8_two_wf |].
  destruct (@fifo_assert_guards ilp32_assert handle8 fifo8_two)
    as (_ & _ & _ & Hret).
  destruct (Hret 3 handle8_pow2 fifo8_two_wf) as (Hpush & Hpop & _).
  split; [apply Hpush; reflexivity |].
  split; [apply Hpop; reflexivity |].
  split; [| split].
  - apply (@fifo_assert_guards ilp32_assert handle8 full). auto.
  - apply (@fifo_assert_guards ilp32_assert handle8 (fifo_zeroed 8)). auto.
  - apply (@fifo_assert_guards ilp32_assert handle8 (fifo_zeroed 8)). auto.
Defined.

(** C6: under their preconditions, [fifo_push] returns the fifo with [write]
    advanced by one (as a 16-bit counter), [read] untouched and the storage
    changed at offset [write AND capacity_mask] only, where the pushed byte
    now is; [fifo_pop] returns the fifo with [read] advanced by one and
    [write] and the storage untouched. *)
Theorem fifo_push_pop_frame `{Target} (h : fifo_handle) (k : Z) (f : fifo) :
  pow2_handle h k -> fifo_wf h f ->
  (fifo_full h f = false -> forall v, exists f',
     fifo_push h f v = Returned f' /\
     write f' = to_u16 (write f + 1) /\
     read f' = read f /\
     length (buf f') = length (buf f) /\
     buf f' !! Z.to_nat (Z.land (write f) (capacity_mask h)) = Some v /\
     forall j, j <> Z.to_nat (Z.land (write f) (capacity_mask h)) ->
               buf f' !! j = buf f !! j) /\
  (fifo_empty f = false -> exists v f',
     fifo_pop h f = Returned (v, f') /\
     read f' = to_u16 (read f + 1) /\
     write f' = write f /\
     buf f' = buf f).
Proof.
  intros Hh Hwf. split.
  - intros Hfull v. eexists. split.
    + apply (fifo_push_not_full h k Hh f v Hwf Hfull).
    + simpl. repeat split.
      * apply length_insert.
      * apply list_lookup_insert_eq.
        destruct Hwf as (_ & _ & Hlen).
        pose proof (pow2_handle_index h k (write f) Hh). lia.
      * intros j Hj. now apply list_lookup_insert_ne.
  - intros Hne.
    destruct (fifo_pop_not_empty h k Hh f Hwf Hne) as (v & _ & Hv).
    exists v. eexists. split; [exact Hv |]. simpl. auto.
Qed.

(** The frame at the capacity-8 state holding two bytes. *)
Lemma fifo_push_pop_frame_witness :
  @pow2_handle ilp32_assert handle8 3 /\
  @fifo_wf ilp32_assert handle8 fifo8_two /\
  (exists f', @fifo_push ilp32_assert handle8 fifo8_two Byte.x2a = Returned f' /\
              write f' = 4 /\ read f' = 1) /\
  (exists v f', @fifo_pop ilp32_assert handle8 fifo8_two = Returned (v, f') /\
                read f' = 2 /\ write f' = 3 /\ buf f' = buf fifo8_two).
Proof.
  split; [exact handle8_pow2 |]. split; [exact fifo8_two_wf |].
  destruct (@fifo_push_pop_frame ilp32_assert handle8 3 fifo8_two
              handle8_pow2 fifo8_two_wf) as (Hpush & Hpop).
  split.
  - destruct (Hpush eq_refl Byte.x2a) as (f' & Hf & Hw & Hr & _).
    exists f'. auto.
  - destruct (Hpop eq_refl) as (v & f' & Hf & Hr & Hw & Hb).
    exists v, f'. auto.
Defined.

(** Over a handle of a power-of-two capacity the offset
    [index AND capacity_mask] lies below the capacity for every 16-bit
    index, and no call of [fifo_push], [fifo_peek] or [fifo_pop] leaves the
    storage, whatever the counters hold and whether or not the call's
    precondition holds or assertions are compiled in. *)
Theorem fifo_index_in_bounds `{Target} (h : fifo_handle) (k : Z) :
  pow2_handle h k ->
  (forall idx, 0 <= idx < 2 ^ 16 ->
     0 <= Z.land idx (capacity_mask h) < fifo_capacity h) /\
  (forall f v, fifo_wf h f ->
     fifo_push h f v <> OutOfBounds /\
     fifo_peek h f <> OutOfBounds /\
     fifo_pop h f <> OutOfBounds).
Proof.
  intros Hh. split.
  - intros idx _. now apply pow2_handle_index with (k := k).
  - intros f v Hwf. repeat split.
    + destruct (fifo_push_cases h k Hh f v Hwf) as [[f' ->] | (_ & _ & ->)];
        discriminate.
    + destruct (fifo_peek_cases h k Hh f Hwf) as [[b ->] | (_ & _ & ->)];
        discriminate.
    + destruct (fifo_pop_cases h k Hh f Hwf) as [(b & f' & ->) | (_ & _ & ->)];
        discriminate.
Qed.

(** The bound with assertions compiled out, on a full capacity-8 fifo whose
    push precondition is therefore violated. *)
Lemma fifo_index_in_bounds_witness :
  let f := {| write := 65535; read := 65527; buf := buf fifo8_two |} in
  @pow2_handle ilp32_noassert handle8 3 /\
  @fifo_full ilp32_noassert handle8 f = true /\
  0 <= Z.land 65535 (capacity_mask handle8) < @fifo_capacity ilp32_noassert handle8 /\
  @fifo_push ilp32_noassert handle8 f Byte.x2a <> OutOfBounds.
Proof.
  intros f.
  destruct (@fifo_index_in_bounds ilp32_noassert handle8 3 handle8_pow2)
    as (Hidx & Hcalls).
  split; [exact handle8_pow2 |]. split; [reflexivity |]. split.
  - apply Hidx. lia.
  - apply (Hcalls f Byte.x2a). repeat split; vm_compute; congruence.
Defined.

(** * Construction *)

(** The bit test of [FIFO_DEFINE] on the integers: it lets through 0 and
    the powers of two, and nothing else. *)
Lemma is_pow2_pos (n : Z) : is_pow2 n -> 0 < n.
Proof. intros (k & Hk & ->). now apply Z.pow_pos_nonneg. Qed.

Lemma not_is_pow2_0 : ~ is_pow2 0.
Proof. intros Hp. apply is_pow2_pos in Hp. lia. Qed.

Lemma fifo_size_ok_pow2 (k : Z) : 0 <= k -> fifo_size_ok (2 ^ k) = true.
Proof.
  intros Hk. unfold fifo_size_ok. apply Z.eqb_eq.
  rewrite land_pow2_mask by exact Hk. apply Z.mod_same.
  pose proof (Z.pow_pos_nonneg 2 k). lia.
Qed.

Lemma fifo_size_ok_pos (s : Z) : 0 < s -> fifo_size_ok s = true -> is_pow2 s.
Proof.
  intros Hs Hok. unfold fifo_size_ok in Hok. apply Z.eqb_eq in Hok.
  pose proof (Z.log2_spec s Hs) as Hlog.
  pose proof (Z.log2_nonneg s) as Hnn.
  exists (Z.log2 s). split; [exact Hnn |].
  destruct (Z.eq_dec s (2 ^ Z.log2 s)) as [Heq | Hne]; [exact Heq | exfalso].
  assert (Hlog' : Z.log2 (s - 1) = Z.log2 s).
  { apply Z.log2_unique; [exact Hnn | lia]. }
  assert (Hbit : Z.testbit (Z.land s (s - 1)) (Z.log2 s) = true).
  { rewrite Z.land_spec, Z.bit_log2 by exact Hs.
    rewrite <- Hlog'. rewrite Z.bit_log2; [reflexivity |].
    pose proof (Z.pow_pos_nonneg 2 (Z.log2 s)). lia. }
  rewrite Hok, Z.bits_0 in Hbit. discriminate Hbit.
Qed.

Lemma fifo_size_ok_neg (s : Z) : s < 0 -> fifo_size_ok s = false.
Proof.
  intros Hs. unfold fifo_size_ok. apply Z.eqb_neq.
  assert (Z.land s (s - 1) < 0) by (apply Z.land_neg; lia). lia.
Qed.

Lemma fifo_size_ok_iff (s : Z) :
  fifo_size_ok s = true <-> s = 0 \/ is_pow2 s.
Proof.
  split.
  - intros Hok. destruct (Z.lt_trichotomy s 0) as [Hneg | [Hz | Hpos]].
    + rewrite (fifo_size_ok_neg s Hneg) in Hok. discriminate Hok.
    + now left.
    + right. now apply fifo_size_ok_pos.
  - intros [-> | (k & Hk & ->)]; [reflexivity | now apply fifo_size_ok_pow2].
Qed.

Lemma size_pow_half `{Target} :
  2 ^ size_bits = 2 * 2 ^ (size_bits - 1) /\ 2147483648 <= 2 ^ (size_bits - 1).
Proof.
  pose proof size_bits_ge_32 as Hge. split.
  - rewrite <- (Z.pow_succ_r 2 (size_bits - 1)) by lia. f_equal. lia.
  - change 2147483648 with (2 ^ 31). apply Z.pow_le_mono_r; lia.
Qed.

(** An array past the object-size limit is refused whatever its size. *)
Lemma FIFO_DEFINE_too_large `{Target} (s : Z) :
  2 ^ (size_bits - 1) <= offsetof_fifo_buf + s -> FIFO_DEFINE s = None.
Proof.
  intros Hbig. unfold FIFO_DEFINE, object_fits.
  destruct (Z.ltb_spec (offsetof_fifo_buf + s) (2 ^ (size_bits - 1)));
    [lia | reflexivity].
Qed.

Lemma FIFO_DEFINE_size_not_ok `{Target} (s : Z) :
  fifo_size_ok s = false -> FIFO_DEFINE s = None.
Proof.
  intros Hok. unfold FIFO_DEFINE. rewrite Hok.
  now destruct (object_fits (offsetof_fifo_buf + s)).
Qed.

Lemma FIFO_DEFINE_accepts `{Target} (s : Z) :
  0 <= s -> offsetof_fifo_buf + s < 2 ^ (size_bits - 1) ->
  fifo_size_ok s = true ->
  FIFO_DEFINE s = Some (offsetof_fifo_buf + s).
Proof.
  intros Hs Hfit Hok. unfold FIFO_DEFINE, object_fits.
  destruct (Z.ltb_spec (offsetof_fifo_buf + s) (2 ^ (size_bits - 1)));
    [| lia].
  rewrite Hok. simpl. f_equal. apply to_size_t_small.
  destruct size_pow_half as [Hhalf _]. unfold offsetof_fifo_buf in *. lia.
Qed.

(** The handle [FIFO_INITIALIZER] makes over an array of
    [offsetof(struct fifo, buf) + s] bytes: its mask is [s - 1] as a
    [size_t], and [fifo_capacity] gives [s] back. *)
Lemma FIFO_INITIALIZER_handle `{Target} (s : Z) :
  0 <= s -> offsetof_fifo_buf + s < 2 ^ size_bits ->
  FIFO_CAPACITY (offsetof_fifo_buf + s) = s /\
  capacity_mask (FIFO_INITIALIZER (offsetof_fifo_buf + s)) = to_size_t (s - 1) /\
  fifo_capacity (FIFO_INITIALIZER (offsetof_fifo_buf + s)) = s.
Proof.
  unfold offsetof_fifo_buf. intros Hs Hfit.
  assert (Hcap : FIFO_CAPACITY (4 + s) = s).
  { unfold FIFO_CAPACITY, offsetof_fifo_buf.
    replace (4 + s - 4) with s by lia. apply to_size_t_small. lia. }
  repeat split; try exact Hcap.
  - unfold FIFO_INITIALIZER. simpl. now rewrite Hcap.
  - unfold fifo_capacity, FIFO_INITIALIZER. simpl. rewrite Hcap.
    destruct (Z.eq_dec s 0) as [-> | Hnz].
    + change (0 - 1) with (-1).
      rewrite (to_size_t_neg (-1)) by (pose proof size_pow_ge; lia).
      replace (-1 + 2 ^ size_bits + 1) with (0 + 1 * 2 ^ size_bits) by lia.
      unfold to_size_t. rewrite Z_mod_plus_full. apply Z.mod_0_l.
      pose proof size_pow_ge. lia.
    + rewrite (to_size_t_small (s - 1)) by lia.
      replace (s - 1 + 1) with s by lia. apply to_size_t_small. lia.
Qed.

(** The same over what [FIFO_DEFINE] reserved for an accepted size. *)
Lemma FIFO_DEFINE_handle `{Target} (s : Z) :
  0 <= s -> offsetof_fifo_buf + s < 2 ^ (size_bits - 1) ->
  fifo_size_ok s = true ->
  FIFO_DEFINE s = Some (offsetof_fifo_buf + s) /\
  FIFO_CAPACITY (offsetof_fifo_buf + s) = s /\
  capacity_mask (FIFO_INITIALIZER (offsetof_fifo_buf + s)) = to_size_t (s - 1) /\
  fifo_capacity (FIFO_INITIALIZER (offsetof_fifo_buf + s)) = s.
Proof.
  intros Hs Hfit Hok. split; [now apply FIFO_DEFINE_accepts |].
  apply FIFO_INITIALIZER_handle; [exact Hs |].
  destruct size_pow_half as [Hhalf Hge]. lia.
Qed.

Lemma FIFO_DEFINE_pow2_handle `{Target} (k : Z) :
  0 <= k -> offsetof_fifo_buf + 2 ^ k < 2 ^ size_bits ->
  pow2_handle (FIFO_INITIALIZER (offsetof_fifo_buf + 2 ^ k)) k.
Proof.
  intros Hk Hfit.
  assert (Hpos : 0 < 2 ^ k) by (apply Z.pow_pos_nonneg; lia).
  assert (Hnn : 0 <= 2 ^ k) by lia.
  destruct (FIFO_INITIALIZER_handle (2 ^ k) Hnn Hfit) as (_ & Hmask & _).
  split.
  - split; [exact Hk |]. pose proof size_bits_ge_32.
    apply (Z.pow_lt_mono_r_iff 2); unfold offsetof_fifo_buf in Hfit; lia.
  - rewrite Hmask. apply to_size_t_small.
    unfold offsetof_fifo_buf in Hfit. lia.
Qed.

(** C8: [FIFO_DEFINE] turns away 5 and every other size that is neither 0
    nor a power of two, and the handle over an accepted size [S] has the
    mask [S - 1] and the capacity [S]; a power of two is accepted when the
    array stays within the object-size limit and refused, as every size is,
    when it does not; but the size 0, which is no power of two, passes the
    build assertion. *)
Theorem FIFO_DEFINE_zero_passes `{Target} :
  FIFO_DEFINE 5 = None /\
  (forall s, s <> 0 -> ~ is_pow2 s -> FIFO_DEFINE s = None) /\
  (forall k, 0 <= k -> offsetof_fifo_buf + 2 ^ k < 2 ^ (size_bits - 1) ->
     FIFO_DEFINE (2 ^ k) = Some (offsetof_fifo_buf + 2 ^ k) /\
     capacity_mask (FIFO_INITIALIZER (offsetof_fifo_buf + 2 ^ k)) = 2 ^ k - 1 /\
     fifo_capacity (FIFO_INITIALIZER (offsetof_fifo_buf + 2 ^ k)) = 2 ^ k) /\
  (forall s, 2 ^ (size_bits - 1) <= offsetof_fifo_buf + s ->
     FIFO_DEFINE s = None) /\
  ~ is_pow2 0 /\
  FIFO_DEFINE 0 = Some offsetof_fifo_buf.
Proof.
  destruct size_pow_half as [Hhalf Hge].
  split; [| split; [| split; [| split; [| split]]]].
  - now apply FIFO_DEFINE_size_not_ok.
  - intros s Hnz Hnp. apply FIFO_DEFINE_size_not_ok.
    destruct (fifo_size_ok s) eqn:Hok; [| reflexivity].
    apply fifo_size_ok_iff in Hok. tauto.
  - intros k Hk Hfit.
    assert (Hpos : 0 < 2 ^ k) by (apply Z.pow_pos_nonneg; lia).
    assert (Hnn : 0 <= 2 ^ k) by lia.
    destruct (FIFO_DEFINE_handle (2 ^ k) Hnn Hfit
                (fifo_size_ok_pow2 k Hk)) as (Hdef & _ & Hmask & Hcap).
    repeat split; [exact Hdef | | exact Hcap].
    rewrite Hmask. apply to_size_t_small.
    unfold offsetof_fifo_buf in Hfit. lia.
  - intros s. apply FIFO_DEFINE_too_large.
  - exact not_is_pow2_0.
  - rewrite (FIFO_DEFINE_accepts 0); [f_equal | lia | | reflexivity];
      unfold offsetof_fifo_buf; lia.
Qed.

(** C9: the size 0 satisfies the build-time test of [FIFO_DEFINE] although
    it is no power of two; the handle over the storage so reserved has
    every bit of [capacity_mask] set, and [fifo_capacity] returns 0 for
    it. *)
Theorem fifo_zero_capacity `{Target} :
  fifo_size_ok 0 = true /\
  ~ is_pow2 0 /\
  (exists sizeof_name,
     FIFO_DEFINE 0 = Some sizeof_name /\
     FIFO_CAPACITY sizeof_name = 0 /\
     capacity_mask (FIFO_INITIALIZER sizeof_name) = Z.ones size_bits /\
     capacity_mask (FIFO_INITIALIZER sizeof_name) = to_size_t (0 - 1) /\
     fifo_capacity (FIFO_INITIALIZER sizeof_name) = 0).
Proof.
  split; [reflexivity |]. split; [exact not_is_pow2_0 |].
  pose proof size_pow_ge as Hge.
  destruct size_pow_half as [_ Hhalf].
  assert (Hfit : offsetof_fifo_buf + 0 < 2 ^ (size_bits - 1))
    by (unfold offsetof_fifo_buf; lia).
  destruct (FIFO_DEFINE_handle 0 (Z.le_refl 0) Hfit eq_refl)
    as (Hdef & Hcap & Hmask & Hzero).
  exists (offsetof_fifo_buf + 0). repeat split; try assumption.
  rewrite Hmask, Z.ones_equiv, <- Z.sub_1_r.
  rewrite to_size_t_neg by lia. lia.
Qed.

(** The zero-size fifo on a 32-bit target: the mask is [0xFFFFFFFF]. *)
Lemma fifo_zero_capacity_witness :
  @FIFO_DEFINE ilp32_assert 0 = Some 4 /\
  capacity_mask (@FIFO_INITIALIZER ilp32_assert 4) = 4294967295 /\
  @fifo_capacity ilp32_assert (@FIFO_INITIALIZER ilp32_assert 4) = 0.
Proof.
  destruct (@fifo_zero_capacity ilp32_assert)
    as (_ & _ & sz & Hdef & _ & Hmask & _ & Hcap).
  assert (Hsz : sz = 4) by (vm_compute in Hdef; congruence).
  subst sz. auto.
Defined.

(** * The fifo as a queue *)

Section Queue.
Context {T : Target}.
Variables (h : fifo_handle) (k : Z).
Hypothesis Hh : pow2_handle h k.

(** ** Counters against the mask *)

Lemma mask_mod (x : Z) : Z.land x (capacity_mask h) = x mod 2 ^ k.
Proof. destruct Hh as [Hk ->]. apply land_pow2_mask. lia. Qed.

Lemma pow2_divides_u16 : k <= 16 -> (2 ^ k | 2 ^ 16).
Proof.
  intros Hk. destruct Hh as [[Hk0 _] _]. exists (2 ^ (16 - k)).
  rewrite <- Z.pow_add_r by lia. f_equal. lia.
Qed.

Lemma mask_to_u16_add (a i : Z) :
  k <= 16 ->
  Z.land (to_u16 a + i) (capacity_mask h) = Z.land (a + i) (capacity_mask h).
Proof.
  intros Hk. rewrite !mask_mod. unfold to_u16.
  rewrite <- (Z.add_mod_idemp_l (a mod 2 ^ 16)), <- (Z.add_mod_idemp_l a).
  - now rewrite Z.mod_mod_divide by now apply pow2_divides_u16.
  - destruct Hh as [[Hk0 _] _]. pose proof (Z.pow_pos_nonneg 2 k). lia.
  - destruct Hh as [[Hk0 _] _]. pose proof (Z.pow_pos_nonneg 2 k). lia.
Qed.

Lemma capacity_pos : 0 < fifo_capacity h.
Proof.
  rewrite (pow2_handle_capacity h k Hh). destruct Hh as [[Hk0 _] _].
  apply Z.pow_pos_nonneg; lia.
Qed.

Lemma capacity_le_pow (n : Z) : k <= n -> fifo_capacity h <= 2 ^ n.
Proof.
  intros Hk. rewrite (pow2_handle_capacity h k Hh).
  destruct Hh as [[Hk0 _] _]. apply Z.pow_le_mono_r; lia.
Qed.

(** Two offsets less than a capacity apart fall on different bytes. *)
Lemma mask_distinct (pos i n : Z) :
  0 <= i < n -> n < fifo_capacity h ->
  Z.land (pos + i) (capacity_mask h) <> Z.land (pos + n) (capacity_mask h).
Proof.
  intros Hi Hn. rewrite !mask_mod.
  rewrite (pow2_handle_capacity h k Hh) in Hn.
  set (C := 2 ^ k) in *. intros Heq.
  assert (HC : 0 < C) by lia.
  pose proof (Z.div_mod (pos + i) C ltac:(lia)) as H1.
  pose proof (Z.div_mod (pos + n) C ltac:(lia)) as H2.
  rewrite Heq in H1.
  assert (Hd : C * ((pos + n) / C - (pos + i) / C) = n - i) by lia.
  set (q := (pos + n) / C - (pos + i) / C) in *.
  assert (q <= 0 \/ 1 <= q) as [Hq | Hq] by lia; nia.
Qed.

(** ** What the two tests say about the counters *)

Lemma not_full_counters (f : fifo) :
  k <= 15 -> fifo_wf h f -> fifo_full h f = false ->
  read f <= write f /\ write f - read f < fifo_capacity h.
Proof.
  intros Hk (Hw & Hr & _) Hfull. change (2 ^ 16) with 65536 in Hw, Hr.
  unfold fifo_full in Hfull. apply Z.leb_gt in Hfull.
  pose proof (capacity_le_pow 15 Hk) as Hcap.
  change (2 ^ 15) with 32768 in Hcap.
  pose proof size_pow_ge as Hsz.
  destruct (Z_lt_le_dec (write f) (read f)) as [Hlt | Hle].
  - rewrite fifo_used_lt in Hfull by lia. lia.
  - rewrite fifo_used_ge in Hfull by lia. lia.
Qed.

Lemma empty_counters (f : fifo) :
  fifo_wf h f -> (fifo_empty f = true <-> write f = read f).
Proof.
  intros (Hw & Hr & _). change (2 ^ 16) with 65536 in Hw, Hr.
  unfold fifo_empty. rewrite Z.eqb_eq.
  pose proof size_pow_ge as Hsz.
  destruct (Z_lt_le_dec (write f) (read f)) as [Hlt | Hle].
  - rewrite fifo_used_lt by lia. lia.
  - rewrite fifo_used_ge by lia. lia.
Qed.

Lemma not_empty_distance (f : fifo) :
  fifo_wf h f -> fifo_empty f = false -> 1 <= to_u16 (write f - read f).
Proof.
  intros Hwf Hne.
  assert (Hneq : write f <> read f).
  { intros Heq. apply (empty_counters f Hwf) in Heq. congruence. }
  destruct Hwf as (Hw & Hr & _). change (2 ^ 16) with 65536 in Hw, Hr.
  pose proof (to_u16_range (write f - read f)) as Hrange.
  unfold to_u16 in *. change (2 ^ 16) with 65536 in *.
  destruct (Z.eq_dec ((write f - read f) mod 65536) 0) as [Hz | Hnz]; [| lia].
  apply Z.mod_divide in Hz; [| lia]. destruct Hz as [q Hq]. lia.
Qed.

(** ** The buffered bytes *)

Lemma take_from_length (b : list u8_t) (pos : Z) (n : nat) :
  length (take_from h b pos n) = n.
Proof.
  revert pos. induction n as [| n IH]; intros pos; simpl; [reflexivity |].
  now rewrite IH.
Qed.

Lemma take_from_snoc (b : list u8_t) (pos : Z) (n : nat) :
  k <= 16 ->
  take_from h b pos (S n) =
  take_from h b pos n ++
  [default Byte.x00 (load b (Z.land (pos + Z.of_nat n) (capacity_mask h)))].
Proof.
  intros Hk. revert pos. induction n as [| n IH]; intros pos.
  - simpl. now rewrite Z.add_0_r.
  - change (take_from h b pos (S (S n))) with
      (default Byte.x00 (load b (Z.land pos (capacity_mask h)))
         :: take_from h b (to_u16 (pos + 1)) (S n)).
    rewrite IH, mask_to_u16_add by exact Hk.
    replace (pos + 1 + Z.of_nat n) with (pos + Z.of_nat (S n)) by lia.
    reflexivity.
Qed.

Lemma take_from_insert (b : list u8_t) (pos : Z) (n j : nat) (v : u8_t) :
  k <= 16 ->
  (forall i, (i < n)%nat ->
     Z.to_nat (Z.land (pos + Z.of_nat i) (capacity_mask h)) <> j) ->
  take_from h (<[j := v]> b) pos n = take_from h b pos n.
Proof.
  intros Hk. revert pos. induction n as [| n IH]; intros pos Hfresh.
  - reflexivity.
  - simpl. f_equal.
    + unfold load. rewrite list_lookup_insert_ne; [reflexivity |].
      specialize (Hfresh O ltac:(lia)). simpl in Hfresh.
      rewrite Z.add_0_r in Hfresh. congruence.
    + apply IH. intros i Hi. rewrite mask_to_u16_add by exact Hk.
      specialize (Hfresh (S i) ltac:(lia)).
      replace (pos + 1 + Z.of_nat i) with (pos + Z.of_nat (S i)) by lia.
      exact Hfresh.
Qed.

Lemma fifo_contents_length (f : fifo) :
  Z.of_nat (length (fifo_contents h f)) = to_u16 (write f - read f).
Proof.
  unfold fifo_contents. rewrite take_from_length.
  pose proof (to_u16_range (write f - read f)). lia.
Qed.

Lemma fifo_contents_empty (f : fifo) :
  write f = read f -> fifo_contents h f = [].
Proof.
  intros Heq. unfold fifo_contents. now rewrite Heq, Z.sub_diag.
Qed.

(** ** One push, one pop *)

Lemma fifo_push_contents (f : fifo) (v : u8_t) :
  k <= 15 -> fifo_wf h f -> fifo_full h f = false ->
  exists f',
    fifo_push h f v = Returned f' /\
    fifo_inv h f' /\
    fifo_contents h f' = fifo_contents h f ++ [v].
Proof.
  intros Hk Hwf Hfull.
  destruct (not_full_counters f Hk Hwf Hfull) as [Hle Hlt].
  pose proof (capacity_le_pow 15 Hk) as Hcap.
  change (2 ^ 15) with 32768 in Hcap.
  pose proof Hwf as (Hw & Hr & Hlen). change (2 ^ 16) with 65536 in Hw, Hr.
  pose proof (pow2_handle_index h k (write f) Hh) as Hidx.
  eexists. split; [apply (fifo_push_not_full h k Hh f v Hwf Hfull) |].
  assert (Hdist : to_u16 (to_u16 (write f + 1) - read f) =
                  write f - read f + 1).
  { unfold to_u16. rewrite Zminus_mod_idemp_l.
    replace (write f + 1 - read f) with (write f - read f + 1) by lia.
    apply Z.mod_small. change (2 ^ 16) with 65536. lia. }
  assert (Hdist0 : to_u16 (write f - read f) = write f - read f).
  { unfold to_u16. apply Z.mod_small. change (2 ^ 16) with 65536. lia. }
  split.
  - split.
    + split; [| split]; simpl.
      * pose proof (to_u16_range (write f + 1)).
        change (2 ^ 16) with 65536. lia.
      * change (2 ^ 16) with 65536. lia.
      * now rewrite length_insert.
    + simpl. rewrite Hdist. lia.
  - unfold fifo_contents. simpl. rewrite Hdist, Hdist0.
    replace (Z.to_nat (write f - read f + 1))
      with (S (Z.to_nat (write f - read f))) by lia.
    rewrite take_from_snoc by lia.
    rewrite Z2Nat.id by lia.
    replace (read f + (write f - read f)) with (write f) by lia.
    f_equal.
    + apply take_from_insert; [lia |]. intros i Hi Heq.
      apply Z2Nat.inj in Heq.
      * revert Heq. replace (write f) with (read f + (write f - read f)) by lia.
        apply mask_distinct; lia.
      * apply (pow2_handle_index h k _ Hh).
      * lia.
    + unfold load. rewrite list_lookup_insert_eq by lia. reflexivity.
Qed.

Lemma fifo_pop_contents (f : fifo) :
  fifo_wf h f -> fifo_empty f = false ->
  exists v f',
    fifo_pop h f = Returned (v, f') /\
    fifo_wf h f' /\
    to_u16 (write f' - read f') = to_u16 (write f - read f) - 1 /\
    fifo_contents h f = v :: fifo_contents h f'.
Proof.
  intros Hwf Hne.
  pose proof (not_empty_distance f Hwf Hne) as Hdist.
  pose proof (to_u16_range (write f - read f)) as Hrange.
  destruct (fifo_pop_not_empty h k Hh f Hwf Hne) as (v & Hload & Hpop).
  exists v. eexists. split; [exact Hpop |].
  assert (Hdist' : to_u16 (write f - to_u16 (read f + 1)) =
                   to_u16 (write f - read f) - 1).
  { unfold to_u16 at 1 2. rewrite Zminus_mod_idemp_r.
    replace (write f - (read f + 1)) with (write f - read f - 1) by lia.
    rewrite <- Zminus_mod_idemp_l. apply Z.mod_small.
    unfold to_u16 in *. change (2 ^ 16) with 65536 in *. lia. }
  split; [| split].
  - destruct Hwf as (Hw & Hr & Hlen). repeat split; simpl; try lia.
    + apply Z.mod_pos_bound. lia.
    + apply Z.mod_pos_bound. lia.
  - simpl. exact Hdist'.
  - unfold fifo_contents. simpl. rewrite Hdist'.
    replace (Z.to_nat (to_u16 (write f - read f)))
      with (S (Z.to_nat (to_u16 (write f - read f) - 1))) by lia.
    simpl. now rewrite Hload.
Qed.

Lemma fifo_pop_inv (f : fifo) :
  fifo_inv h f -> fifo_empty f = false ->
  exists v f',
    fifo_pop h f = Returned (v, f') /\
    fifo_inv h f' /\
    fifo_contents h f = v :: fifo_contents h f'.
Proof.
  intros [Hwf Hcap] Hne.
  destruct (fifo_pop_contents f Hwf Hne) as (v & f' & Hpop & Hwf' & Hd & Hc).
  exists v, f'. repeat split; try assumption.
  - apply Hwf'.
  - apply Hwf'.
  - apply Hwf'.
  - apply Hwf'.
  - apply Hwf'.
  - lia.
Qed.

(** ** Runs *)

(** A run that respects the callers' discipline returns, and what was
    buffered before it followed by what it pushed is what it popped
    followed by what is buffered after it. *)
Lemma exec_contents (ops : list op) :
  k <= 15 ->
  forall f, fifo_inv h f -> respects h f ops = true ->
  exists f' out,
    exec h f ops = Returned (f', out) /\
    fifo_inv h f' /\
    fifo_contents h f ++ pushed ops = out ++ fifo_contents h f'.
Proof.
  intros Hk. induction ops as [| [v |] ops IH]; intros f Hinv Hresp.
  - exists f, []. simpl. rewrite app_nil_r. auto.
  - simpl in Hresp. apply andb_prop in Hresp as [Hfull Hrest].
    apply negb_true_iff in Hfull.
    destruct (fifo_push_contents f v Hk (proj1 Hinv) Hfull)
      as (f1 & Hpush & Hinv1 & Hc1).
    rewrite Hpush in Hrest.
    destruct (IH f1 Hinv1 Hrest) as (f' & out & Hexec & Hinv' & Hc).
    exists f', out. simpl. rewrite Hpush. repeat split; try assumption.
    + apply Hinv'.
    + apply Hinv'.
    + apply Hinv'.
    + apply Hinv'.
    + apply Hinv'.
    + apply Hinv'.
    + rewrite <- Hc, Hc1, <- app_assoc. reflexivity.
  - simpl in Hresp. apply andb_prop in Hresp as [Hne Hrest].
    apply negb_true_iff in Hne.
    destruct (fifo_pop_inv f Hinv Hne) as (v & f1 & Hpop & Hinv1 & Hc1).
    rewrite Hpop in Hrest.
    destruct (IH f1 Hinv1 Hrest) as (f' & out & Hexec & Hinv' & Hc).
    exists f', (v :: out). simpl. rewrite Hpop, Hexec.
    repeat split; try assumption.
    + apply Hinv'.
    + apply Hinv'.
    + apply Hinv'.
    + apply Hinv'.
    + apply Hinv'.
    + apply Hinv'.
    + rewrite Hc1. simpl. now rewrite Hc.
Qed.

Lemma empty_fifo_inv (f : fifo) :
  fifo_wf h f -> fifo_empty f = true ->
  fifo_inv h f /\ fifo_contents h f = [].
Proof.
  intros Hwf He. apply (empty_counters f Hwf) in He.
  split; [split; [exact Hwf |] | now apply fifo_contents_empty].
  rewrite He, Z.sub_diag. pose proof capacity_pos. unfold to_u16.
  rewrite Z.mod_0_l by (change (2 ^ 16) with 65536; lia). lia.
Qed.

(** Pushes in a row, as long as neither the capacity nor the end of the
    16-bit range is passed. *)
Lemma exec_pushes (vs : list u8_t) :
  forall f,
    fifo_wf h f -> read f <= write f ->
    write f - read f + Z.of_nat (length vs) <= fifo_capacity h ->
    write f + Z.of_nat (length vs) <= 65536 ->
    respects h f (map Push vs) = true /\
    exists b,
      exec h f (map Push vs) =
      Returned ({| write := to_u16 (write f + Z.of_nat (length vs));
                   read := read f;
                   buf := b |}, []) /\
      length b = length (buf f).
Proof.
  induction vs as [| v vs IH]; intros f Hwf Hle Hcap Hend.
  - split; [reflexivity |]. exists (buf f). split; [| reflexivity].
    simpl. rewrite Z.add_0_r. destruct Hwf as (Hw & _).
    unfold to_u16. rewrite Z.mod_small by exact Hw. now destruct f.
  - simpl length in Hcap, Hend.
    pose proof Hwf as (Hw & Hr & Hlen). change (2 ^ 16) with 65536 in Hw, Hr.
    assert (Hfull : fifo_full h f = false).
    { unfold fifo_full. apply Z.leb_gt. rewrite fifo_used_ge by lia. lia. }
    pose proof (fifo_push_not_full h k Hh f v Hwf Hfull) as Hpush.
    simpl. rewrite Hfull, Hpush. simpl.
    destruct vs as [| v' vs'].
    + split; [reflexivity |]. eexists. split; [reflexivity |].
      apply length_insert.
    + simpl length in Hcap, Hend, IH.
      set (f1 := {| write := to_u16 (write f + 1); read := read f;
                    buf := <[Z.to_nat (Z.land (write f) (capacity_mask h)) := v]>
                             (buf f) |}) in *.
      assert (Hw1 : write f1 = write f + 1).
      { simpl. unfold to_u16. apply Z.mod_small.
        change (2 ^ 16) with 65536. lia. }
      assert (Hwf1 : fifo_wf h f1).
      { split; [| split].
        - rewrite Hw1. change (2 ^ 16) with 65536. lia.
        - simpl. change (2 ^ 16) with 65536. lia.
        - simpl. now rewrite length_insert. }
      destruct (IH f1 Hwf1) as (Hresp & b & Hexec & Hb).
      * rewrite Hw1. simpl. lia.
      * rewrite Hw1. simpl read. lia.
      * rewrite Hw1. lia.
      * split; [exact Hresp |]. exists b. split.
        -- rewrite Hexec. rewrite Hw1. simpl read.
           replace (write f + Z.of_nat (S (length (v' :: vs'))))
             with (write f + 1 + Z.of_nat (S (length vs')))
             by (simpl length; lia).
           reflexivity.
        -- rewrite Hb. simpl. apply length_insert.
Qed.

(** Rounds of one push and one pop on an empty fifo move both counters
    along and leave it empty. *)
Lemma exec_churn (n : nat) (v : u8_t) :
  forall f,
    fifo_wf h f -> write f = read f ->
    respects h f (churn n v) = true /\
    exists b,
      exec h f (churn n v) =
      Returned ({| write := to_u16 (write f + Z.of_nat n);
                   read := to_u16 (read f + Z.of_nat n);
                   buf := b |}, repeat v n) /\
      length b = length (buf f).
Proof.
  induction n as [| n IH]; intros f Hwf Heq.
  - split; [reflexivity |]. exists (buf f). split; [| reflexivity].
    simpl. rewrite !Z.add_0_r. destruct Hwf as (Hw & Hr & _).
    unfold to_u16. rewrite !Z.mod_small by assumption. now destruct f.
  - pose proof Hwf as (Hw & Hr & Hlen). change (2 ^ 16) with 65536 in Hw, Hr.
    assert (Hfull : fifo_full h f = false).
    { unfold fifo_full. apply Z.leb_gt. rewrite fifo_used_ge by lia.
      pose proof capacity_pos. lia. }
    pose proof (fifo_push_not_full h k Hh f v Hwf Hfull) as Hpush.
    set (f1 := {| write := to_u16 (write f + 1); read := read f;
                  buf := <[Z.to_nat (Z.land (write f) (capacity_mask h)) := v]>
                           (buf f) |}) in *.
    pose proof (to_u16_range (write f + 1)) as Hw1.
    assert (Hwf1 : fifo_wf h f1).
    { split; [| split]; simpl.
      - change (2 ^ 16) with 65536. lia.
      - change (2 ^ 16) with 65536. lia.
      - now rewrite length_insert. }
    assert (Hne : fifo_empty f1 = false).
    { destruct (fifo_empty f1) eqn:He; [exfalso | reflexivity].
      apply (empty_counters f1 Hwf1) in He. simpl in He.
      unfold to_u16 in He. change (2 ^ 16) with 65536 in He.
      destruct (Z.eq_dec (write f) 65535) as [Hmax | Hmax].
      - rewrite Hmax in He. change ((65535 + 1) mod 65536) with 0 in He. lia.
      - rewrite Z.mod_small in He by lia. lia. }
    destruct (fifo_pop_not_empty h k Hh f1 Hwf1 Hne) as (v1 & Hload & Hpop).
    assert (Hv1 : v1 = v).
    { simpl in Hload. unfold load in Hload. rewrite Heq in Hload.
      rewrite list_lookup_insert_eq in Hload; [congruence |].
      pose proof (pow2_handle_index h k (read f) Hh). lia. }
    subst v1.
    set (f2 := {| write := write f1; read := to_u16 (read f1 + 1);
                  buf := buf f1 |}) in *.
    assert (Hwf2 : fifo_wf h f2).
    { split; [| split]; simpl.
      - change (2 ^ 16) with 65536. lia.
      - pose proof (to_u16_range (read f + 1)).
        change (2 ^ 16) with 65536. lia.
      - now rewrite length_insert. }
    destruct (IH f2 Hwf2) as (Hresp & b & Hexec & Hb).
    { simpl. now rewrite Heq. }
    simpl churn. simpl respects. simpl exec.
    rewrite Hfull, Hpush. simpl negb. simpl andb.
    rewrite Hne, Hpop. simpl negb. simpl andb.
    split; [exact Hresp |]. exists b. split.
    + rewrite Hexec. simpl write. simpl read. simpl repeat.
      unfold to_u16. rewrite !Zplus_mod_idemp_l.
      do 3 f_equal; f_equal; lia.
    + rewrite Hb. simpl. apply length_insert.
Qed.

(** Runs one after the other. *)
Lemma exec_app (ops1 ops2 : list op) :
  forall f f1 out1 f2 out2,
    exec h f ops1 = Returned (f1, out1) ->
    exec h f1 ops2 = Returned (f2, out2) ->
    exec h f (ops1 ++ ops2) = Returned (f2, out1 ++ out2).
Proof.
  induction ops1 as [| [v |] ops1 IH]; intros f f1 out1 f2 out2 H1 H2.
  - simpl in H1. injection H1 as <- <-. exact H2.
  - simpl in *. destruct (fifo_push h f v) as [f' | |]; try discriminate.
    now apply (IH f' f1).
  - simpl in *. destruct (fifo_pop h f) as [[v' f'] | |]; try discriminate.
    destruct (exec h f' ops1) as [[f'' o] | |] eqn:He; try discriminate.
    injection H1 as <- <-.
    now rewrite (IH f' f'' o f2 out2 He H2).
Qed.

Lemma respects_app (ops1 ops2 : list op) :
  forall f f1 out1,
    exec h f ops1 = Returned (f1, out1) ->
    respects h f ops1 = true -> respects h f1 ops2 = true ->
    respects h f (ops1 ++ ops2) = true.
Proof.
  induction ops1 as [| [v |] ops1 IH]; intros f f1 out1 H1 Hr1 Hr2.
  - simpl in H1. injection H1 as <- <-. exact Hr2.
  - simpl in *. apply andb_prop in Hr1 as [Hg Hr1]. rewrite Hg. simpl.
    destruct (fifo_push h f v) as [f' | |]; try discriminate.
    now apply (IH f' f1 out1).
  - simpl in *. apply andb_prop in Hr1 as [Hg Hr1]. rewrite Hg. simpl.
    destruct (fifo_pop h f) as [[v' f'] | |]; try discriminate.
    destruct (exec h f' ops1) as [[f'' o] | |] eqn:He; try discriminate.
    injection H1 as <- <-.
    now apply (IH f' f'' o He).
Qed.

End Queue.

Lemma pushed_app (ops1 ops2 : list op) :
  pushed (ops1 ++ ops2) = pushed ops1 ++ pushed ops2.
Proof.
  induction ops1 as [| [v |] ops1 IH]; simpl; [reflexivity | | exact IH].
  now rewrite IH.
Qed.

Lemma pushed_map_Push (vs : list u8_t) : pushed (map Push vs) = vs.
Proof. induction vs as [| v vs IH]; simpl; [reflexivity | now rewrite IH]. Qed.

(** ** A capacity the 16-bit counters cannot count *)

(** With 65536 bytes of storage the counters meet again after 65536 pushes:
    every one of them finds the fifo not full, and the fifo then tests
    empty.  One more push and a pop give back the byte pushed last. *)
Lemma exec_overrun `{Target} (h : fifo_handle) (f0 : fifo)
    (vs : list u8_t) (v : u8_t) :
  pow2_handle h 16 -> fifo_wf h f0 -> write f0 = 0 -> read f0 = 0 ->
  Z.of_nat (length vs) = 65536 ->
  (respects h f0 (map Push vs) = true /\
   exists f1, exec h f0 (map Push vs) = Returned (f1, []) /\
              fifo_full h f1 = false /\ fifo_empty f1 = true) /\
  respects h f0 (map Push vs ++ [Push v; Pop]) = true /\
  exists f', exec h f0 (map Push vs ++ [Push v; Pop]) = Returned (f', [v]).
Proof.
  intros Hh Hwf Hw0 Hr0 Hlen.
  pose proof (pow2_handle_capacity h 16 Hh) as Hcap.
  change (2 ^ 16) with 65536 in Hcap.
  destruct (exec_pushes h 16 Hh vs f0 Hwf) as (Hresp & b & Hexec & Hb);
    try lia.
  rewrite Hw0, Hr0, Hlen in Hexec.
  change (to_u16 (0 + 65536)) with 0 in Hexec.
  set (f1 := {| write := 0; read := 0; buf := b |}) in *.
  assert (Hwf1 : fifo_wf h f1).
  { destruct Hwf as (_ & _ & Hl). repeat split; simpl; lia. }
  assert (Hfull1 : fifo_full h f1 = false).
  { unfold fifo_full. apply Z.leb_gt. rewrite fifo_used_ge by (simpl; lia).
    simpl. lia. }
  assert (Hempty1 : fifo_empty f1 = true).
  { now apply (empty_counters h f1 Hwf1). }
  split; [split; [exact Hresp | now exists f1] |].
  pose proof (fifo_push_not_full h 16 Hh f1 v Hwf1 Hfull1) as Hpush.
  simpl in Hpush. change (to_u16 (0 + 1)) with 1 in Hpush.
  rewrite Z.land_0_l in Hpush. change (Z.to_nat 0) with O in Hpush.
  set (f2 := {| write := 1; read := 0; buf := <[O := v]> b |}) in *.
  assert (Hwf2 : fifo_wf h f2).
  { destruct Hwf1 as (_ & _ & Hl). repeat split; simpl; try lia.
    rewrite length_insert. exact Hl. }
  assert (Hne2 : fifo_empty f2 = false).
  { destruct (fifo_empty f2) eqn:He; [exfalso | reflexivity].
    apply (empty_counters h f2 Hwf2) in He. simpl in He. lia. }
  destruct (fifo_pop_not_empty h 16 Hh f2 Hwf2 Hne2) as (v2 & Hload & Hpop).
  assert (Hv2 : v2 = v).
  { simpl in Hload. rewrite Z.land_0_l in Hload. unfold load in Hload.
    change (Z.to_nat 0) with O in Hload.
    rewrite list_lookup_insert_eq in Hload; [congruence |].
    destruct Hwf1 as (_ & _ & Hl). simpl in Hl. lia. }
  subst v2.
  assert (Htail : exec h f1 [Push v; Pop] =
                  Returned ({| write := write f2; read := to_u16 (read f2 + 1);
                               buf := buf f2 |}, [v])).
  { simpl exec. rewrite Hpush, Hpop. reflexivity. }
  split.
  - apply (respects_app h (map Push vs) [Push v; Pop] f0 f1 [] Hexec Hresp).
    simpl respects. rewrite Hfull1, Hpush. simpl negb. simpl andb.
    rewrite Hne2, Hpop. reflexivity.
  - eexists. apply (exec_app h (map Push vs) [Push v; Pop] f0 f1 [] _ [v] Hexec Htail).
Qed.

(** * First in, first out *)

(** C2 (as amended): on a fifo of a power-of-two capacity of at most 32768
    bytes, every sequence of pushes and pops that starts from an empty fifo,
    pushes only when [fifo_full] is false and pops only when [fifo_empty] is
    false runs to its end, and the n-th byte a pop returns is the n-th byte
    that was pushed; the pushed bytes not yet popped are the ones
    buffered. *)
Theorem fifo_order `{Target} (h : fifo_handle) (k : Z) (f0 : fifo)
    (ops : list op) :
  pow2_handle h k -> k <= 15 ->
  fifo_wf h f0 -> fifo_empty f0 = true ->
  respects h f0 ops = true ->
  exists f' out,
    exec h f0 ops = Returned (f', out) /\
    pushed ops = out ++ fifo_contents h f' /\
    forall n v, out !! n = Some v -> pushed ops !! n = Some v.
Proof.
  intros Hh Hk Hwf He Hresp.
  destruct (empty_fifo_inv h k Hh f0 Hwf He) as [Hinv Hnil].
  destruct (exec_contents h k Hh ops Hk f0 Hinv Hresp)
    as (f' & out & Hexec & _ & Hc).
  rewrite Hnil in Hc. simpl in Hc.
  exists f', out. split; [exact Hexec |]. split; [exact Hc |].
  intros n v Hn. rewrite Hc. now apply lookup_app_l_Some.
Qed.

(** A run on a capacity-8 fifo that takes both counters over the end of
    the 16-bit range. *)
Lemma fifo_order_witness :
  let f0 := fifo_empty_at 65534 8 in
  let ops := [Push Byte.x01; Push Byte.x02; Pop; Pop; Push Byte.x03; Pop] in
  @pow2_handle ilp32_assert handle8 3 /\
  @fifo_wf ilp32_assert handle8 f0 /\
  @fifo_empty ilp32_assert f0 = true /\
  @respects ilp32_assert handle8 f0 ops = true /\
  exists f' out,
    @exec ilp32_assert handle8 f0 ops = Returned (f', out) /\
    pushed ops = out ++ fifo_contents handle8 f' /\
    forall n v, out !! n = Some v -> pushed ops !! n = Some v.
Proof.
  intros f0 ops.
  assert (Hwf : @fifo_wf ilp32_assert handle8 f0)
    by (repeat split; vm_compute; congruence).
  split; [exact handle8_pow2 |]. split; [exact Hwf |].
  split; [reflexivity |]. split; [reflexivity |].
  apply (@fifo_order ilp32_assert handle8 3 f0 ops handle8_pow2);
    [lia | exact Hwf | reflexivity | reflexivity].
Defined.

(** C2 (as stated) fails on a fifo of 65536 bytes: after 65536 pushes of
    [0x01], each made while [fifo_full] was false, one push of [0x02] and
    one pop, made while [fifo_empty] was false, the first byte popped is
    [0x02] although the first byte pushed was [0x01]. *)
Lemma fifo_order_lost_at_65536 :
  let h := {| capacity_mask := 65535 |} in
  let f0 := fifo_zeroed 65536 in
  let ops := map Push (repeat Byte.x01 (Z.to_nat 65536))
               ++ [Push Byte.x02; Pop] in
  @fifo_empty ilp32_assert f0 = true /\
  @respects ilp32_assert h f0 ops = true /\
  (exists f', @exec ilp32_assert h f0 ops = Returned (f', [Byte.x02])) /\
  pushed ops !! O = Some Byte.x01.
Proof.
  intros h f0 ops.
  assert (Hh : @pow2_handle ilp32_assert h 16).
  { split; [change size_bits with 32; lia | reflexivity]. }
  assert (Hwf : @fifo_wf ilp32_assert h f0).
  { split; [| split].
    - change (write f0) with 0. lia.
    - change (read f0) with 0. lia.
    - change (buf f0) with (repeat Byte.x00 (Z.to_nat 65536)).
      rewrite repeat_length, Z2Nat.id by lia. reflexivity. }
  assert (Hlen : Z.of_nat (length (repeat Byte.x01 (Z.to_nat 65536))) = 65536).
  { rewrite repeat_length, Z2Nat.id by lia. reflexivity. }
  destruct (@exec_overrun ilp32_assert h f0
              (repeat Byte.x01 (Z.to_nat 65536)) Byte.x02
              Hh Hwf eq_refl eq_refl Hlen) as (_ & Hresp & Hexec).
  split; [reflexivity |]. split; [exact Hresp |]. split; [exact Hexec |].
  unfold ops. rewrite pushed_app, pushed_map_Push.
  replace (Z.to_nat 65536) with (S (Z.to_nat 65535)) by lia.
  reflexivity.
Qed.

(** * Filling a fifo *)

(** C4 (as amended): take an empty fifo of a power-of-two capacity [C]
    whose counters stand at least [C] below the top of the 16-bit range, as
    they do in a zeroed fifo of at most 32768 bytes.  Each of [C] successive
    pushes, of any bytes, finds [fifo_full] false beforehand and returns;
    after the last one [fifo_used] equals [C] and [fifo_full] is true, so
    that one more push violates its precondition and, with assertions
    compiled in, is stopped by the assertion. *)
Theorem fifo_fill `{Target} (h : fifo_handle) (k : Z) (f0 : fifo)
    (vs : list u8_t) :
  pow2_handle h k ->
  fifo_wf h f0 -> fifo_empty f0 = true ->
  write f0 + fifo_capacity h <= 65535 ->
  Z.of_nat (length vs) = fifo_capacity h ->
  (forall i, (i < length vs)%nat ->
     exists fi, exec h f0 (map Push (take i vs)) = Returned (fi, []) /\
                fifo_full h fi = false) /\
  respects h f0 (map Push vs) = true /\
  exists f',
    exec h f0 (map Push vs) = Returned (f', []) /\
    fifo_used f' = fifo_capacity h /\
    fifo_full h f' = true /\
    (CONFIG_ASSERT = true ->
     forall v, fifo_push h f' v = AssertFailed "push to full fifo").
Proof.
  intros Hh Hwf He Hroom Hlen.
  apply (empty_counters h f0 Hwf) in He.
  pose proof (capacity_pos h k Hh) as Hpos.
  pose proof Hwf as (Hw & Hr & _). change (2 ^ 16) with 65536 in Hw, Hr.
  split; [| split].
  - intros i Hi.
    assert (Hli : length (take i vs) = i) by (apply length_take_le; lia).
    destruct (exec_pushes h k Hh (take i vs) f0 Hwf)
      as (_ & b & Hexec & _); try lia.
    eexists. split; [exact Hexec |].
    unfold fifo_full. apply Z.leb_gt. rewrite Hli.
    rewrite fifo_used_ge; simpl; unfold to_u16; change (2 ^ 16) with 65536;
      rewrite Z.mod_small by lia; lia.
  - destruct (exec_pushes h k Hh vs f0 Hwf) as (Hresp & _); try lia.
    exact Hresp.
  - destruct (exec_pushes h k Hh vs f0 Hwf) as (_ & b & Hexec & _); try lia.
    eexists. split; [exact Hexec |].
    assert (Hused :
      fifo_used {| write := to_u16 (write f0 + Z.of_nat (length vs));
                   read := read f0; buf := b |} = fifo_capacity h).
    { rewrite fifo_used_ge; simpl; unfold to_u16; change (2 ^ 16) with 65536;
        rewrite Z.mod_small by lia; lia. }
    assert (Hfull :
      fifo_full h {| write := to_u16 (write f0 + Z.of_nat (length vs));
                     read := read f0; buf := b |} = true).
    { unfold fifo_full. rewrite Hused. apply Z.leb_refl. }
    split; [exact Hused |]. split; [exact Hfull |].
    intros Ha v. unfold fifo_push, __ASSERT. now rewrite Ha, Hfull.
Qed.

(** Four pushes fill a zeroed capacity-4 fifo. *)
Lemma fifo_fill_witness :
  let h := {| capacity_mask := 3 |} in
  let f0 := fifo_zeroed 4 in
  let vs := [Byte.x0a; Byte.x0b; Byte.x0c; Byte.x0d] in
  @pow2_handle ilp32_assert h 2 /\
  @fifo_wf ilp32_assert h f0 /\
  @fifo_empty ilp32_assert f0 = true /\
  @respects ilp32_assert h f0 (map Push vs) = true /\
  exists f',
    @exec ilp32_assert h f0 (map Push vs) = Returned (f', []) /\
    @fifo_used ilp32_assert f' = 4 /\
    @fifo_full ilp32_assert h f' = true /\
    @fifo_push ilp32_assert h f' Byte.x0e = AssertFailed "push to full fifo".
Proof.
  intros h f0 vs.
  assert (Hh : @pow2_handle ilp32_assert h 2)
    by (split; [change size_bits with 32; lia | reflexivity]).
  assert (Hwf : @fifo_wf ilp32_assert h f0)
    by (repeat split; vm_compute; congruence).
  destruct (@fifo_fill ilp32_assert h 2 f0 vs Hh Hwf eq_refl)
    as (_ & Hresp & f' & Hexec & Hused & Hfull & Hpush).
  - vm_compute. congruence.
  - reflexivity.
  - split; [exact Hh |]. split; [exact Hwf |]. split; [reflexivity |].
    split; [exact Hresp |]. exists f'. repeat split; try assumption.
    apply Hpush. reflexivity.
Defined.

(** C4 (as stated) fails for the power of two 65536: a zeroed fifo of
    that capacity takes 65536 pushes, each finding [fifo_full] false, and
    [fifo_full] is still false after the last of them. *)
Lemma fifo_fill_65536_not_full :
  let h := {| capacity_mask := 65535 |} in
  let f0 := fifo_zeroed 65536 in
  let vs := repeat Byte.x00 (Z.to_nat 65536) in
  @fifo_capacity ilp32_assert h = 2 ^ 16 /\
  Z.of_nat (length vs) = @fifo_capacity ilp32_assert h /\
  @fifo_empty ilp32_assert f0 = true /\
  @respects ilp32_assert h f0 (map Push vs) = true /\
  exists f',
    @exec ilp32_assert h f0 (map Push vs) = Returned (f', []) /\
    @fifo_full ilp32_assert h f' = false.
Proof.
  intros h f0 vs.
  assert (Hh : @pow2_handle ilp32_assert h 16).
  { split; [change size_bits with 32; lia | reflexivity]. }
  assert (Hwf : @fifo_wf ilp32_assert h f0).
  { split; [| split].
    - change (write f0) with 0. lia.
    - change (read f0) with 0. lia.
    - change (buf f0) with (repeat Byte.x00 (Z.to_nat 65536)).
      rewrite repeat_length, Z2Nat.id by lia. reflexivity. }
  assert (Hlen : Z.of_nat (length vs) = 65536).
  { unfold vs. rewrite repeat_length, Z2Nat.id by lia. reflexivity. }
  destruct (@exec_overrun ilp32_assert h f0 vs Byte.x00
              Hh Hwf eq_refl eq_refl Hlen)
    as ((Hresp & f1 & Hexec & Hfull & _) & _).
  split; [reflexivity |]. split; [exact Hlen |]. split; [reflexivity |].
  split; [exact Hresp |]. exists f1. split; assumption.
Qed.

(** * Peeking *)

(** On the 65536-byte fifo, after 65536 pushes and one more, all made
    while [fifo_full] was false and with no pop in between, the fifo is not
    empty and [fifo_peek] shows the byte pushed last. *)
Lemma exec_overrun_peek `{Target} (h : fifo_handle) (f0 : fifo)
    (vs : list u8_t) (v : u8_t) :
  pow2_handle h 16 -> fifo_wf h f0 -> write f0 = 0 -> read f0 = 0 ->
  Z.of_nat (length vs) = 65536 ->
  respects h f0 (map Push vs ++ [Push v]) = true /\
  exists f,
    exec h f0 (map Push vs ++ [Push v]) = Returned (f, []) /\
    fifo_empty f = false /\
    fifo_peek h f = Returned (v, f).
Proof.
  intros Hh Hwf Hw0 Hr0 Hlen.
  pose proof (pow2_handle_capacity h 16 Hh) as Hcap.
  change (2 ^ 16) with 65536 in Hcap.
  destruct (exec_pushes h 16 Hh vs f0 Hwf) as (Hresp & b & Hexec & Hb);
    try lia.
  rewrite Hw0, Hr0, Hlen in Hexec.
  change (to_u16 (0 + 65536)) with 0 in Hexec.
  set (f1 := {| write := 0; read := 0; buf := b |}) in *.
  assert (Hwf1 : fifo_wf h f1).
  { destruct Hwf as (_ & _ & Hl). repeat split; simpl; lia. }
  assert (Hfull1 : fifo_full h f1 = false).
  { unfold fifo_full. apply Z.leb_gt. rewrite fifo_used_ge by (simpl; lia).
    simpl. lia. }
  pose proof (fifo_push_not_full h 16 Hh f1 v Hwf1 Hfull1) as Hpush.
  simpl in Hpush. change (to_u16 (0 + 1)) with 1 in Hpush.
  rewrite Z.land_0_l in Hpush. change (Z.to_nat 0) with O in Hpush.
  set (f2 := {| write := 1; read := 0; buf := <[O := v]> b |}) in *.
  assert (Hwf2 : fifo_wf h f2).
  { destruct Hwf1 as (_ & _ & Hl). repeat split; simpl; try lia.
    rewrite length_insert. exact Hl. }
  assert (Hne2 : fifo_empty f2 = false).
  { destruct (fifo_empty f2) eqn:He; [exfalso | reflexivity].
    apply (empty_counters h f2 Hwf2) in He. simpl in He. lia. }
  destruct (fifo_peek_not_empty h 16 Hh f2 Hwf2 Hne2) as (v2 & Hload & Hpeek).
  assert (Hv2 : v2 = v).
  { simpl in Hload. rewrite Z.land_0_l in Hload. unfold load in Hload.
    change (Z.to_nat 0) with O in Hload.
    rewrite list_lookup_insert_eq in Hload; [congruence |].
    destruct Hwf1 as (_ & _ & Hl). simpl in Hl. lia. }
  subst v2.
  assert (Htail : exec h f1 [Push v] = Returned (f2, [])).
  { simpl exec. now rewrite Hpush. }
  split.
  - apply (respects_app h (map Push vs) [Push v] f0 f1 [] Hexec Hresp).
    simpl respects. rewrite Hfull1, Hpush. reflexivity.
  - exists f2. split; [| split; [exact Hne2 | exact Hpeek]].
    apply (exec_app h (map Push vs) [Push v] f0 f1 [] f2 [] Hexec Htail).
Qed.

(** C7 (as amended): on every non-empty fifo of a power-of-two capacity
    [fifo_peek] returns the fifo as it was, counters and storage alike, and
    the byte that [fifo_pop] called next returns.  When the capacity is at
    most 32768 bytes and the fifo was reached from an empty one by pushes
    and pops made under their preconditions, that byte is the oldest
    buffered one: the first of the pushed bytes that no pop has returned. *)
Theorem fifo_peek_oldest `{Target} (h : fifo_handle) (k : Z) :
  pow2_handle h k ->
  (forall f, fifo_wf h f -> fifo_empty f = false ->
     exists v, fifo_peek h f = Returned (v, f) /\
               exists f', fifo_pop h f = Returned (v, f')) /\
  (k <= 15 ->
   forall f0 ops,
     fifo_wf h f0 -> fifo_empty f0 = true -> respects h f0 ops = true ->
     exists f out,
       exec h f0 ops = Returned (f, out) /\
       (fifo_empty f = false ->
        exists v, pushed ops !! length out = Some v /\
                  fifo_peek h f = Returned (v, f) /\
                  exists f', fifo_pop h f = Returned (v, f'))).
Proof.
  intros Hh. split.
  - intros f Hwf Hne.
    destruct (fifo_peek_not_empty h k Hh f Hwf Hne) as (v & Hload & Hpeek).
    destruct (fifo_pop_not_empty h k Hh f Hwf Hne) as (v' & Hload' & Hpop).
    assert (v' = v) by congruence. subst v'.
    exists v. split; [exact Hpeek |]. eexists. exact Hpop.
  - intros Hk f0 ops Hwf He Hresp.
    destruct (empty_fifo_inv h k Hh f0 Hwf He) as [Hinv Hnil].
    destruct (exec_contents h k Hh ops Hk f0 Hinv Hresp)
      as (f & out & Hexec & [Hwf' _] & Hc).
    rewrite Hnil in Hc. simpl in Hc.
    exists f, out. split; [exact Hexec |]. intros Hne.
    destruct (fifo_pop_contents h k Hh f Hwf' Hne)
      as (v & f' & Hpop & _ & _ & Hc').
    destruct (fifo_peek_not_empty h k Hh f Hwf' Hne) as (v' & Hload & Hpeek).
    destruct (fifo_pop_not_empty h k Hh f Hwf' Hne) as (v'' & Hload' & Hpop').
    assert (v' = v'') by congruence. subst v''.
    assert (v' = v) by congruence. subst v'.
    exists v. split; [| split; [exact Hpeek | eexists; exact Hpop]].
    rewrite Hc, Hc'. rewrite lookup_app_r by lia.
    replace (length out - length out)%nat with O by lia. reflexivity.
Qed.

(** Two pushes and a pop on a capacity-8 fifo whose counters start at
    65534: the byte pushed second is the oldest one left. *)
Lemma fifo_peek_oldest_witness :
  let f0 := fifo_empty_at 65534 8 in
  let ops := [Push Byte.x01; Push Byte.x02; Pop] in
  @pow2_handle ilp32_assert handle8 3 /\
  @fifo_wf ilp32_assert handle8 f0 /\
  @fifo_empty ilp32_assert f0 = true /\
  @respects ilp32_assert handle8 f0 ops = true /\
  exists f,
    @exec ilp32_assert handle8 f0 ops = Returned (f, [Byte.x01]) /\
    @fifo_empty ilp32_assert f = false /\
    @fifo_peek ilp32_assert handle8 f = Returned (Byte.x02, f) /\
    exists f', @fifo_pop ilp32_assert handle8 f = Returned (Byte.x02, f').
Proof.
  intros f0 ops.
  assert (Hwf : @fifo_wf ilp32_assert handle8 f0)
    by (repeat split; vm_compute; congruence).
  split; [exact handle8_pow2 |]. split; [exact Hwf |].
  split; [reflexivity |]. split; [reflexivity |].
  destruct (@fifo_peek_oldest ilp32_assert handle8 3 handle8_pow2)
    as [_ Hrun].
  destruct (Hrun ltac:(lia) f0 ops Hwf eq_refl eq_refl)
    as (f & out & Hexec & Hpeek).
  pose proof Hexec as Hrun'. vm_compute in Hrun'.
  injection Hrun' as Hf Hout. subst out.
  assert (Hne : @fifo_empty ilp32_assert f = false) by (now subst f).
  destruct (Hpeek Hne) as (v & Hv & Hpk & f' & Hpop).
  assert (v = Byte.x02) by (vm_compute in Hv; congruence). subst v.
  exists f. split; [exact Hexec |]. split; [exact Hne |].
  split; [exact Hpk |]. exists f'. exact Hpop.
Defined.

(** C7 (as stated) fails on a fifo of 65536 bytes: after 65536 pushes of
    [0x01] and one push of [0x02], each made while [fifo_full] was false and
    with no pop at all, the fifo is not empty and [fifo_peek] returns
    [0x02], the byte pushed last, although the oldest byte pushed and not
    popped is [0x01]. *)
Lemma fifo_peek_newest_at_65536 :
  let h := {| capacity_mask := 65535 |} in
  let f0 := fifo_zeroed 65536 in
  let ops := map Push (repeat Byte.x01 (Z.to_nat 65536)) ++ [Push Byte.x02] in
  @fifo_empty ilp32_assert f0 = true /\
  @respects ilp32_assert h f0 ops = true /\
  (exists f,
     @exec ilp32_assert h f0 ops = Returned (f, []) /\
     @fifo_empty ilp32_assert f = false /\
     @fifo_peek ilp32_assert h f = Returned (Byte.x02, f)) /\
  pushed ops !! O = Some Byte.x01.
Proof.
  intros h f0 ops.
  assert (Hh : @pow2_handle ilp32_assert h 16).
  { split; [change size_bits with 32; lia | reflexivity]. }
  assert (Hwf : @fifo_wf ilp32_assert h f0).
  { split; [| split].
    - change (write f0) with 0. lia.
    - change (read f0) with 0. lia.
    - change (buf f0) with (repeat Byte.x00 (Z.to_nat 65536)).
      rewrite repeat_length, Z2Nat.id by lia. reflexivity. }
  assert (Hlen : Z.of_nat (length (repeat Byte.x01 (Z.to_nat 65536))) = 65536).
  { rewrite repeat_length, Z2Nat.id by lia. reflexivity. }
  destruct (@exec_overrun_peek ilp32_assert h f0
              (repeat Byte.x01 (Z.to_nat 65536)) Byte.x02
              Hh Hwf eq_refl eq_refl Hlen) as (Hresp & Hexec).
  split; [reflexivity |]. split; [exact Hresp |]. split; [exact Hexec |].
  unfold ops. rewrite pushed_app, pushed_map_Push.
  replace (Z.to_nat 65536) with (S (Z.to_nat 65535)) by lia.
  reflexivity.
Qed.

(** * The write counter ahead of the read counter by a wrap *)

(** With [write] numerically below [read], [fifo_used] is not the 16-bit
    distance of the counters: it lies within 65535 of the top of the
    [size_t] range, and the fifo tests full at every capacity of at most
    32768 bytes. *)
Lemma fifo_used_wrapped `{Target} (h : fifo_handle) (k : Z) (f : fifo) :
  pow2_handle h k -> k <= 15 ->
  0 <= write f < read f -> read f < 65536 ->
  fifo_used f = 2 ^ size_bits - (read f - write f) /\
  to_u16 (write f - read f) = 65536 - (read f - write f) /\
  fifo_used f <> to_u16 (write f - read f) /\
  fifo_full h f = true.
Proof.
  intros Hh Hk Hw Hr. pose proof size_pow_ge as Hsz.
  pose proof (capacity_le_pow h k Hh 15 Hk) as Hcap.
  change (2 ^ 15) with 32768 in Hcap.
  assert (Hu : fifo_used f = 2 ^ size_bits - (read f - write f)).
  { rewrite fifo_used_lt by lia. lia. }
  assert (Hd : to_u16 (write f - read f) = 65536 - (read f - write f)).
  { unfold to_u16. change (2 ^ 16) with 65536.
    rewrite <- (Z_mod_plus_full (write f - read f) 1 65536).
    rewrite Z.mod_small by lia. lia. }
  repeat split; try assumption.
  - lia.
  - unfold fifo_full. apply Z.leb_le. lia.
Qed.

(** 65535 rounds of one push and one pop on a zeroed fifo and one more
    push, all within the callers' discipline, bring [write] to 0 with
    [read] at 65535 and one byte buffered. *)
Lemma exec_wrap `{Target} (h : fifo_handle) (k : Z) (f0 : fifo) (v : u8_t) :
  pow2_handle h k -> k <= 15 ->
  fifo_wf h f0 -> write f0 = 0 -> read f0 = 0 ->
  respects h f0 (churn (Z.to_nat 65535) v ++ [Push v]) = true /\
  exists f,
    exec h f0 (churn (Z.to_nat 65535) v ++ [Push v]) =
    Returned (f, repeat v (Z.to_nat 65535)) /\
    write f = 0 /\ read f = 65535 /\
    fifo_contents h f = [v].
Proof.
  intros Hh Hk Hwf Hw0 Hr0.
  destruct (exec_churn h k Hh (Z.to_nat 65535) v f0 Hwf)
    as (Hresp & b & Hexec & Hb); [congruence |].
  rewrite Hw0, Hr0, Z2Nat.id in Hexec by lia.
  change (to_u16 (0 + 65535)) with 65535 in Hexec.
  set (f1 := {| write := 65535; read := 65535; buf := b |}) in *.
  assert (Hwf1 : fifo_wf h f1).
  { destruct Hwf as (_ & _ & Hl). repeat split; simpl; lia. }
  assert (He1 : fifo_empty f1 = true)
    by now apply (empty_counters h f1 Hwf1).
  destruct (empty_fifo_inv h k Hh f1 Hwf1 He1) as [_ Hnil].
  assert (Hfull1 : fifo_full h f1 = false).
  { unfold fifo_full. apply Z.leb_gt. rewrite fifo_used_ge by (simpl; lia).
    pose proof (capacity_pos h k Hh). simpl. lia. }
  destruct (fifo_push_contents h k Hh f1 v Hk Hwf1 Hfull1)
    as (f & Hpush & _ & Hc).
  pose proof (fifo_push_not_full h k Hh f1 v Hwf1 Hfull1) as Hpush'.
  rewrite Hpush in Hpush'. injection Hpush' as Hf.
  assert (Htail : exec h f1 [Push v] = Returned (f, [])).
  { simpl. now rewrite Hpush. }
  split.
  - apply (respects_app h _ [Push v] f0 f1 _ Hexec Hresp).
    simpl. rewrite Hfull1, Hpush. reflexivity.
  - exists f. split; [| split; [| split]].
    + rewrite <- (app_nil_r (repeat v (Z.to_nat 65535))).
      apply (exec_app h _ [Push v] f0 f1 _ f [] Hexec Htail).
    + rewrite Hf. reflexivity.
    + rewrite Hf. reflexivity.
    + rewrite Hc, Hnil. reflexivity.
Qed.

(** C1: [fifo_used] after the write counter has wrapped and the read
    counter has not.  A zeroed capacity-8 fifo on a 32-bit target goes
    through 65535 rounds of one push and one pop and one more push, every
    call made under its precondition.  It then holds one byte, [write] is 0
    and [read] is 65535, so the difference of the counters modulo 2^16 is
    1; [fifo_used] returns 4294901761, which is neither 1 nor within the
    capacity, and [fifo_full] is true. *)
Theorem fifo_used_after_wrap :
  let ops := churn (Z.to_nat 65535) Byte.x2a ++ [Push Byte.x2a] in
  @respects ilp32_assert handle8 (fifo_zeroed 8) ops = true /\
  exists f,
    @exec ilp32_assert handle8 (fifo_zeroed 8) ops =
    Returned (f, repeat Byte.x2a (Z.to_nat 65535)) /\
    write f = 0 /\ read f = 65535 /\
    fifo_contents handle8 f = [Byte.x2a] /\
    to_u16 (write f - read f) = 1 /\
    @fifo_used ilp32_assert f = 4294901761 /\
    @fifo_capacity ilp32_assert handle8 = 8 /\
    @fifo_full ilp32_assert handle8 f = true.
Proof.
  intros ops.
  assert (Hwf : @fifo_wf ilp32_assert handle8 (fifo_zeroed 8))
    by (repeat split; vm_compute; congruence).
  destruct (@exec_wrap ilp32_assert handle8 3 (fifo_zeroed 8) Byte.x2a
              handle8_pow2 ltac:(lia) Hwf eq_refl eq_refl)
    as (Hresp & f & Hexec & Hw & Hr & Hc).
  destruct (@fifo_used_wrapped ilp32_assert handle8 3 f handle8_pow2)
    as (Hu & Hd & _ & Hfull); try lia.
  split; [exact Hresp |]. exists f.
  split; [exact Hexec |]. split; [exact Hw |]. split; [exact Hr |].
  split; [exact Hc |]. rewrite Hu, Hd, Hw, Hr.
  split; [reflexivity |]. split; [reflexivity |].
  split; [reflexivity | exact Hfull].
Qed.

(** * The zero-size fifo *)

(** What the power-of-two hypothesis on the handle keeps out: over the
    zero-size fifo every bit of the mask is set, the offset is the counter
    itself, and with assertions compiled out a push goes past the storage,
    which has no byte at all. *)
Lemma fifo_push_zero_capacity :
  let h := @FIFO_INITIALIZER ilp32_noassert 4 in
  let f := {| write := 0; read := 0; buf := [] |} in
  @fifo_capacity ilp32_noassert h = 0 /\
  @fifo_full ilp32_noassert h f = true /\
  @fifo_push ilp32_noassert h f Byte.x2a = OutOfBounds /\
  @fifo_push ilp32_assert h f Byte.x2a = AssertFailed "push to full fifo".
Proof. repeat split. Qed.

Lemma land_le_mask (x m : Z) : 0 <= m -> 0 <= Z.land x m <= m.
Proof.
  intros Hm. split; [apply Z.land_nonneg; now right |].
  pose proof (Z.sub_land_same_l m x) as Hsub.
  assert (0 <= Z.land m (Z.lnot x)) by (apply Z.land_nonneg; now left).
  rewrite (Z.land_comm x m). lia.
Qed.

(** C10: where the storage accesses leave the array.  The handle over the
    zero-size fifo that [FIFO_DEFINE] accepts has a capacity of 0, which no
    offset [index AND capacity_mask] is below, and with assertions compiled
    out [fifo_push], [fifo_peek] and [fifo_pop] all go past its storage.
    Over every other handle, of a capacity that is not 0, the offset lies
    below the capacity for every 16-bit index and no call leaves the
    storage, whatever the counters hold, whether or not the precondition
    holds and whether or not assertions are compiled in. *)
Theorem fifo_zero_size_out_of_bounds `{Target} :
  (exists sizeof_name,
     FIFO_DEFINE 0 = Some sizeof_name /\
     fifo_wf (FIFO_INITIALIZER sizeof_name)
       (fifo_zeroed (FIFO_CAPACITY sizeof_name)) /\
     fifo_capacity (FIFO_INITIALIZER sizeof_name) = 0 /\
     (forall idx,
        ~ Z.land idx (capacity_mask (FIFO_INITIALIZER sizeof_name))
          < fifo_capacity (FIFO_INITIALIZER sizeof_name)) /\
     (CONFIG_ASSERT = false ->
      (forall v,
         fifo_push (FIFO_INITIALIZER sizeof_name)
           (fifo_zeroed (FIFO_CAPACITY sizeof_name)) v = OutOfBounds) /\
      fifo_peek (FIFO_INITIALIZER sizeof_name)
        (fifo_zeroed (FIFO_CAPACITY sizeof_name)) = OutOfBounds /\
      fifo_pop (FIFO_INITIALIZER sizeof_name)
        (fifo_zeroed (FIFO_CAPACITY sizeof_name)) = OutOfBounds)) /\
  (forall h,
     0 <= capacity_mask h < 2 ^ size_bits -> fifo_capacity h <> 0 ->
     (forall idx, 0 <= idx < 2 ^ 16 ->
        0 <= Z.land idx (capacity_mask h) < fifo_capacity h) /\
     (forall f v, fifo_wf h f ->
        fifo_push h f v <> OutOfBounds /\
        fifo_peek h f <> OutOfBounds /\
        fifo_pop h f <> OutOfBounds)).
Proof.
  pose proof size_pow_ge as Hsz. destruct size_pow_half as [_ Hhalf].
  split.
  - assert (Hfit : offsetof_fifo_buf + 0 < 2 ^ (size_bits - 1))
      by (unfold offsetof_fifo_buf; lia).
    destruct (FIFO_DEFINE_handle 0 (Z.le_refl 0) Hfit eq_refl)
      as (Hdef & Hcap & Hmask & Hzero).
    exists (offsetof_fifo_buf + 0). rewrite Hcap.
    set (h := FIFO_INITIALIZER (offsetof_fifo_buf + 0)) in *.
    assert (Hm : 0 <= capacity_mask h).
    { rewrite Hmask. apply to_size_t_range. }
    split; [exact Hdef |]. split; [| split; [exact Hzero | split]].
    + unfold fifo_zeroed. repeat split; simpl; lia.
    + intros idx. rewrite Hzero.
      pose proof (land_le_mask idx (capacity_mask h) Hm). lia.
    + intros Ha.
      unfold fifo_push, fifo_peek, fifo_pop, __ASSERT. rewrite Ha. simpl.
      split; [intros v; reflexivity | split; reflexivity].
  - intros h Hm Hnz.
    assert (Hcap : fifo_capacity h = capacity_mask h + 1).
    { unfold fifo_capacity. apply to_size_t_small.
      destruct (Z.eq_dec (capacity_mask h + 1) (2 ^ size_bits)) as [He | He];
        [| lia].
      exfalso. apply Hnz. unfold fifo_capacity, to_size_t. rewrite He.
      apply Z.mod_same. lia. }
    assert (Hidx : forall x,
              0 <= Z.land x (capacity_mask h) < fifo_capacity h).
    { intros x. pose proof (land_le_mask x (capacity_mask h)). lia. }
    split; [intros idx _; apply Hidx |].
    intros f v (_ & _ & Hlen).
    split; [| split].
    + unfold fifo_push, __ASSERT.
      destruct (CONFIG_ASSERT && _); [discriminate |].
      rewrite store_in_bounds; [discriminate |].
      rewrite Hlen. apply Hidx.
    + unfold fifo_peek, __ASSERT.
      destruct (CONFIG_ASSERT && _); [discriminate |].
      destruct (load_in_bounds (buf f) (Z.land (read f) (capacity_mask h)))
        as [b ->]; [rewrite Hlen; apply Hidx | discriminate].
    + unfold fifo_pop, __ASSERT.
      destruct (CONFIG_ASSERT && _); [discriminate |].
      destruct (load_in_bounds (buf f) (Z.land (read f) (capacity_mask h)))
        as [b ->]; [rewrite Hlen; apply Hidx | discriminate].
Qed.

(** * Further properties of the fifo *)

(** X1: for a power-of-two size whose array stays within the object-size
    limit, [FIFO_DEFINE] accepts, [FIFO_CAPACITY] gives the size back, and
    the handle [FIFO_INITIALIZER] makes, over the zeroed storage, is that of
    a valid fifo that is empty, not full and holds no byte. *)
Theorem FIFO_DEFINE_zeroed_valid `{Target} (k : Z) :
  0 <= k -> offsetof_fifo_buf + 2 ^ k < 2 ^ (size_bits - 1) ->
  exists sizeof_name,
    FIFO_DEFINE (2 ^ k) = Some sizeof_name /\
    FIFO_CAPACITY sizeof_name = 2 ^ k /\
    pow2_handle (FIFO_INITIALIZER sizeof_name) k /\
    fifo_inv (FIFO_INITIALIZER sizeof_name)
      (fifo_zeroed (FIFO_CAPACITY sizeof_name)) /\
    fifo_used (fifo_zeroed (FIFO_CAPACITY sizeof_name)) = 0 /\
    fifo_empty (fifo_zeroed (FIFO_CAPACITY sizeof_name)) = true /\
    fifo_full (FIFO_INITIALIZER sizeof_name)
      (fifo_zeroed (FIFO_CAPACITY sizeof_name)) = false /\
    fifo_contents (FIFO_INITIALIZER sizeof_name)
      (fifo_zeroed (FIFO_CAPACITY sizeof_name)) = [].
Proof.
  intros Hk Hfit.
  assert (Hpos : 0 < 2 ^ k) by (apply Z.pow_pos_nonneg; lia).
  assert (Hnn : 0 <= 2 ^ k) by lia.
  destruct (FIFO_DEFINE_handle (2 ^ k) Hnn Hfit (fifo_size_ok_pow2 k Hk))
    as (Hdef & Hcap & _ & Hcapacity).
  assert (Hfit' : offsetof_fifo_buf + 2 ^ k < 2 ^ size_bits).
  { destruct size_pow_half as [Hhalf Hge]. lia. }
  pose proof (FIFO_DEFINE_pow2_handle k Hk Hfit') as Hh.
  exists (offsetof_fifo_buf + 2 ^ k). rewrite Hcap.
  set (h := FIFO_INITIALIZER (offsetof_fifo_buf + 2 ^ k)) in *.
  assert (Hwf : fifo_wf h (fifo_zeroed (2 ^ k))).
  { unfold fifo_zeroed. split; [| split]; simpl.
    - lia.
    - lia.
    - rewrite repeat_length, Z2Nat.id by lia. now rewrite Hcapacity. }
  assert (He : fifo_empty (fifo_zeroed (2 ^ k)) = true).
  { now apply (empty_counters h (fifo_zeroed (2 ^ k)) Hwf). }
  destruct (empty_fifo_inv h k Hh _ Hwf He) as [Hinv Hnil].
  assert (Hu : fifo_used (fifo_zeroed (2 ^ k)) = 0).
  { unfold fifo_empty in He. now apply Z.eqb_eq in He. }
  repeat split; try assumption; try apply Hwf; try apply Hh; try apply Hinv.
  unfold fifo_full. apply Z.leb_gt. rewrite Hu, Hcapacity. exact Hpos.
Qed.

(** The construction of a 256-byte fifo on a 32-bit target. *)
Lemma FIFO_DEFINE_zeroed_valid_witness :
  @FIFO_DEFINE ilp32_assert 256 = Some 260 /\
  @FIFO_CAPACITY ilp32_assert 260 = 256 /\
  @fifo_inv ilp32_assert (@FIFO_INITIALIZER ilp32_assert 260)
    (fifo_zeroed 256) /\
  @fifo_empty ilp32_assert (fifo_zeroed 256) = true.
Proof.
  destruct (@FIFO_DEFINE_zeroed_valid ilp32_assert 8)
    as (sz & Hdef & Hcap & _ & Hinv & _ & He & _).
  - lia.
  - vm_compute. reflexivity.
  - assert (Hsz : sz = 260) by (vm_compute in Hdef; congruence).
    subst sz. split; [exact Hdef |]. split; [exact Hcap |].
    rewrite Hcap in Hinv, He. change (2 ^ 8) with 256 in Hinv, He.
    split; [exact Hinv | exact He].
Defined.

(** One push into an empty fifo, then a peek and a pop. *)
Lemma push_peek_pop_empty `{Target} (h : fifo_handle) (k : Z) (f : fifo)
    (v : u8_t) :
  pow2_handle h k -> fifo_wf h f -> fifo_empty f = true ->
  exists f1 f2,
    fifo_push h f v = Returned f1 /\
    fifo_peek h f1 = Returned (v, f1) /\
    fifo_pop h f1 = Returned (v, f2) /\
    fifo_empty f2 = true /\
    write f2 = to_u16 (write f + 1) /\
    read f2 = to_u16 (read f + 1).
Proof.
  intros Hh Hwf He.
  pose proof He as Heq. apply (empty_counters h f Hwf) in Heq.
  pose proof Hwf as (Hw & Hr & Hlen). change (2 ^ 16) with 65536 in Hw, Hr.
  assert (Hfull : fifo_full h f = false).
  { unfold fifo_full. apply Z.leb_gt. rewrite fifo_used_ge by lia.
    pose proof (capacity_pos h k Hh). lia. }
  pose proof (fifo_push_not_full h k Hh f v Hwf Hfull) as Hpush.
  set (f1 := {| write := to_u16 (write f + 1); read := read f;
                buf := <[Z.to_nat (Z.land (write f) (capacity_mask h)) := v]>
                         (buf f) |}) in *.
  pose proof (to_u16_range (write f + 1)) as Hw1.
  assert (Hwf1 : fifo_wf h f1).
  { split; [| split]; simpl.
    - change (2 ^ 16) with 65536. lia.
    - change (2 ^ 16) with 65536. lia.
    - now rewrite length_insert. }
  assert (Hne : fifo_empty f1 = false).
  { destruct (fifo_empty f1) eqn:He1; [exfalso | reflexivity].
    apply (empty_counters h f1 Hwf1) in He1. simpl in He1.
    unfold to_u16 in He1. change (2 ^ 16) with 65536 in He1.
    destruct (Z.eq_dec (write f) 65535) as [Hmax | Hmax].
    - rewrite Hmax in He1. change ((65535 + 1) mod 65536) with 0 in He1. lia.
    - rewrite Z.mod_small in He1 by lia. lia. }
  destruct (fifo_pop_not_empty h k Hh f1 Hwf1 Hne) as (v1 & Hload & Hpop).
  destruct (fifo_peek_not_empty h k Hh f1 Hwf1 Hne) as (v2 & Hload2 & Hpeek).
  assert (Hv1 : v1 = v).
  { simpl in Hload. unfold load in Hload. rewrite Heq in Hload.
    rewrite list_lookup_insert_eq in Hload; [congruence |].
    pose proof (pow2_handle_index h k (read f) Hh). lia. }
  assert (Hv2 : v2 = v) by congruence.
  subst v1 v2.
  exists f1. eexists. split; [exact Hpush |]. split; [exact Hpeek |].
  split; [exact Hpop |]. simpl. split; [| split; reflexivity].
  apply (empty_counters h).
  - split; [| split]; simpl.
    + change (2 ^ 16) with 65536. lia.
    + pose proof (to_u16_range (read f + 1)).
      change (2 ^ 16) with 65536. lia.
    + now rewrite length_insert.
  - simpl. now rewrite Heq.
Qed.

(** X2: a byte pushed into an empty fifo is the byte [fifo_peek] shows and
    [fifo_pop] returns next, after which the fifo is empty again with both
    counters one further, modulo 2^16; this holds at every counter value,
    65535 included, and for every power-of-two capacity. *)
Theorem fifo_push_pop_empty `{Target} (h : fifo_handle) (k : Z) (f : fifo)
    (v : u8_t) :
  pow2_handle h k -> fifo_wf h f -> fifo_empty f = true ->
  exists f1 f2,
    fifo_push h f v = Returned f1 /\
    fifo_peek h f1 = Returned (v, f1) /\
    fifo_pop h f1 = Returned (v, f2) /\
    fifo_empty f2 = true /\
    write f2 = to_u16 (write f + 1) /\
    read f2 = to_u16 (read f + 1).
Proof.
  intros Hh Hwf He. now apply push_peek_pop_empty with (k := k).
Qed.

(** The round trip with both counters at 65535. *)
Lemma fifo_push_pop_empty_witness :
  let f := fifo_empty_at 65535 8 in
  @pow2_handle ilp32_assert handle8 3 /\
  @fifo_wf ilp32_assert handle8 f /\
  @fifo_empty ilp32_assert f = true /\
  exists f1 f2,
    @fifo_push ilp32_assert handle8 f Byte.x2a = Returned f1 /\
    @fifo_pop ilp32_assert handle8 f1 = Returned (Byte.x2a, f2) /\
    @fifo_empty ilp32_assert f2 = true /\ write f2 = 0 /\ read f2 = 0.
Proof.
  intros f.
  assert (Hwf : @fifo_wf ilp32_assert handle8 f)
    by (repeat split; vm_compute; congruence).
  split; [exact handle8_pow2 |]. split; [exact Hwf |].
  split; [reflexivity |].
  destruct (@fifo_push_pop_empty ilp32_assert handle8 3 f Byte.x2a
              handle8_pow2 Hwf eq_refl)
    as (f1 & f2 & Hpush & _ & Hpop & He & Hw & Hr).
  exists f1, f2. auto.
Defined.

(** X3: [fifo_empty] is exact on a fifo of at most 32768 bytes.  After any
    pushes and pops made under their preconditions on a fifo that was
    empty, it is true exactly when every byte pushed has been popped, and
    exactly when the two counters are equal, also when [write] has wrapped
    and [read] has not. *)
Theorem fifo_empty_exact `{Target} (h : fifo_handle) (k : Z) (f0 : fifo)
    (ops : list op) :
  pow2_handle h k -> k <= 15 ->
  fifo_wf h f0 -> fifo_empty f0 = true ->
  respects h f0 ops = true ->
  exists f out,
    exec h f0 ops = Returned (f, out) /\
    (fifo_empty f = true <-> out = pushed ops) /\
    (fifo_empty f = true <-> write f = read f).
Proof.
  intros Hh Hk Hwf He Hresp.
  destruct (empty_fifo_inv h k Hh f0 Hwf He) as [Hinv Hnil].
  destruct (exec_contents h k Hh ops Hk f0 Hinv Hresp)
    as (f & out & Hexec & [Hwf' _] & Hc).
  rewrite Hnil in Hc. simpl in Hc.
  exists f, out. split; [exact Hexec |].
  split; [| apply (empty_counters h f Hwf')].
  split.
  - intros He'. apply (empty_counters h f Hwf') in He'.
    rewrite (fifo_contents_empty h f He'), app_nil_r in Hc. congruence.
  - intros Hout. destruct (fifo_empty f) eqn:He'; [reflexivity | exfalso].
    pose proof (not_empty_distance h f Hwf' He') as Hd.
    pose proof (fifo_contents_length h f) as Hl.
    assert (Hlen : length (pushed ops) =
                   (length out + length (fifo_contents h f))%nat).
    { rewrite Hc. apply length_app. }
    rewrite Hout in Hlen. lia.
Qed.

(** A capacity-8 fifo whose counters start at 65534: not empty after two
    pushes, [write] having wrapped, and empty after two pops. *)
Lemma fifo_empty_exact_witness :
  let f0 := fifo_empty_at 65534 8 in
  @pow2_handle ilp32_assert handle8 3 /\
  @fifo_wf ilp32_assert handle8 f0 /\
  @fifo_empty ilp32_assert f0 = true /\
  (exists f out,
     @exec ilp32_assert handle8 f0 [Push Byte.x01; Push Byte.x02]
     = Returned (f, out) /\
     write f = 0 /\ read f = 65534 /\
     @fifo_empty ilp32_assert f = false) /\
  (exists f out,
     @exec ilp32_assert handle8 f0 [Push Byte.x01; Push Byte.x02; Pop; Pop]
     = Returned (f, out) /\
     @fifo_empty ilp32_assert f = true).
Proof.
  intros f0.
  assert (Hwf : @fifo_wf ilp32_assert handle8 f0)
    by (repeat split; vm_compute; congruence).
  split; [exact handle8_pow2 |]. split; [exact Hwf |].
  split; [reflexivity |]. split.
  - destruct (@fifo_empty_exact ilp32_assert handle8 3 f0
                [Push Byte.x01; Push Byte.x02]
                handle8_pow2 ltac:(lia) Hwf eq_refl eq_refl)
      as (f & out & Hexec & Hiff & _).
    exists f, out. pose proof Hexec as Hrun. vm_compute in Hrun.
    injection Hrun as Hf Hout.
    split; [exact Hexec |]. split; [now subst f |]. split; [now subst f |].
    destruct (@fifo_empty ilp32_assert f) eqn:He; [| reflexivity].
    destruct Hiff as [Hto _]. specialize (Hto eq_refl).
    rewrite <- Hout in Hto. discriminate Hto.
  - destruct (@fifo_empty_exact ilp32_assert handle8 3 f0
                [Push Byte.x01; Push Byte.x02; Pop; Pop]
                handle8_pow2 ltac:(lia) Hwf eq_refl eq_refl)
      as (f & out & Hexec & Hiff & _).
    exists f, out. split; [exact Hexec |].
    apply Hiff. pose proof Hexec as Hrun. vm_compute in Hrun.
    injection Hrun as _ Hout. rewrite <- Hout. reflexivity.
Defined.

(** X4: what [fifo_used] returns.  It is the number of buffered bytes when
    [read] is numerically at most [write]; when [write] has wrapped below
    [read] it is that number plus [2^size_bits - 2^16]. *)
Theorem fifo_used_counters `{Target} (h : fifo_handle) (f : fifo) :
  0 <= write f < 2 ^ 16 -> 0 <= read f < 2 ^ 16 ->
  fifo_used f =
  Z.of_nat (length (fifo_contents h f)) +
  (if write f <? read f then 2 ^ size_bits - 2 ^ 16 else 0).
Proof.
  intros Hw Hr. rewrite fifo_contents_length.
  change (2 ^ 16) with 65536 in *. unfold to_u16. change (2 ^ 16) with 65536.
  destruct (Z.ltb_spec (write f) (read f)) as [Hlt | Hle].
  - rewrite fifo_used_lt by lia.
    rewrite <- (Z_mod_plus_full (write f - read f) 1 65536).
    rewrite Z.mod_small by lia. lia.
  - rewrite fifo_used_ge by lia. rewrite Z.mod_small by lia. lia.
Qed.

(** Two states of a capacity-8 fifo with four bytes buffered. *)
Lemma fifo_used_counters_witness :
  let f1 := {| write := 7; read := 3; buf := buf fifo8_two |} in
  let f2 := {| write := 2; read := 65534; buf := buf fifo8_two |} in
  @fifo_used ilp32_assert f1 = 4 /\
  @fifo_used ilp32_assert f2 = 4 + (4294967296 - 65536) /\
  length (fifo_contents handle8 f1) = 4%nat /\
  length (fifo_contents handle8 f2) = 4%nat.
Proof.
  intros f1 f2.
  pose proof (@fifo_used_counters ilp32_assert handle8 f1) as H1.
  pose proof (@fifo_used_counters ilp32_assert handle8 f2) as H2.
  split; [| split; [| split; reflexivity]].
  - rewrite H1; [reflexivity | simpl; lia | simpl; lia].
  - rewrite H2; [reflexivity | simpl; lia | simpl; lia].
Defined.

(** X5: what [fifo_full] says on a fifo of at most 32768 bytes.  It is true
    exactly when [write] is numerically below [read] or the counters are at
    least the capacity apart; when it is false there is room, fewer bytes
    being buffered than the capacity. *)
Theorem fifo_full_counters `{Target} (h : fifo_handle) (k : Z) (f : fifo) :
  pow2_handle h k -> k <= 15 -> fifo_wf h f ->
  (fifo_full h f = true <->
   write f < read f \/ fifo_capacity h <= write f - read f) /\
  (fifo_full h f = false ->
   Z.of_nat (length (fifo_contents h f)) < fifo_capacity h).
Proof.
  intros Hh Hk Hwf.
  pose proof Hwf as (Hw & Hr & _). change (2 ^ 16) with 65536 in Hw, Hr.
  pose proof (capacity_le_pow h k Hh 15 Hk) as Hcap.
  change (2 ^ 15) with 32768 in Hcap.
  pose proof size_pow_ge as Hsz.
  split.
  - unfold fifo_full. rewrite Z.leb_le.
    destruct (Z_lt_le_dec (write f) (read f)) as [Hlt | Hle].
    + rewrite fifo_used_lt by lia. lia.
    + rewrite fifo_used_ge by lia. lia.
  - intros Hfull.
    destruct (not_full_counters h k Hh f Hk Hwf Hfull) as [Hle Hlt].
    rewrite fifo_contents_length. unfold to_u16.
    change (2 ^ 16) with 65536. rewrite Z.mod_small by lia. lia.
Qed.

(** Full with a single byte buffered: [write] at 0, [read] at 65535. *)
Lemma fifo_full_counters_witness :
  let f := {| write := 0; read := 65535; buf := buf fifo8_two |} in
  @pow2_handle ilp32_assert handle8 3 /\
  @fifo_wf ilp32_assert handle8 f /\
  @fifo_full ilp32_assert handle8 f = true /\
  length (fifo_contents handle8 f) = 1%nat.
Proof.
  intros f.
  assert (Hwf : @fifo_wf ilp32_assert handle8 f)
    by (repeat split; vm_compute; congruence).
  split; [exact handle8_pow2 |]. split; [exact Hwf |].
  split; [| reflexivity].
  apply (@fifo_full_counters ilp32_assert handle8 3 f handle8_pow2);
    [lia | exact Hwf |]. left. simpl. lia.
Defined.

(** X6: on a fifo of at most 32768 bytes a push made while [fifo_full] is
    false returns, keeps every byte that was buffered, in order, and puts
    the new byte behind them; no more bytes are buffered afterwards than
    the storage holds. *)
Theorem fifo_push_appends `{Target} (h : fifo_handle) (k : Z) (f : fifo)
    (v : u8_t) :
  pow2_handle h k -> k <= 15 -> fifo_wf h f -> fifo_full h f = false ->
  exists f',
    fifo_push h f v = Returned f' /\
    fifo_inv h f' /\
    fifo_contents h f' = fifo_contents h f ++ [v].
Proof.
  intros Hh Hk Hwf Hfull. now apply fifo_push_contents with (k := k).
Qed.

(** A third byte behind the two of the capacity-8 state. *)
Lemma fifo_push_appends_witness :
  @pow2_handle ilp32_assert handle8 3 /\
  @fifo_wf ilp32_assert handle8 fifo8_two /\
  @fifo_full ilp32_assert handle8 fifo8_two = false /\
  exists f',
    @fifo_push ilp32_assert handle8 fifo8_two Byte.x2a = Returned f' /\
    fifo_contents handle8 f' = [Byte.x11; Byte.x12; Byte.x2a].
Proof.
  split; [exact handle8_pow2 |]. split; [exact fifo8_two_wf |].
  split; [reflexivity |].
  destruct (@fifo_push_appends ilp32_assert handle8 3 fifo8_two Byte.x2a
              handle8_pow2 ltac:(lia) fifo8_two_wf eq_refl)
    as (f' & Hpush & _ & Hc).
  exists f'. split; [exact Hpush |]. rewrite Hc. reflexivity.
Defined.

(** Pops in a row, one for every buffered byte. *)
Lemma exec_drain `{Target} (h : fifo_handle) (k : Z) (n : nat) :
  pow2_handle h k ->
  forall f,
    fifo_wf h f -> length (fifo_contents h f) = n ->
    respects h f (repeat Pop n) = true /\
    exists f',
      exec h f (repeat Pop n) = Returned (f', fifo_contents h f) /\
      fifo_empty f' = true /\ write f' = write f /\ buf f' = buf f.
Proof.
  intros Hh. induction n as [| n IH]; intros f Hwf Hlen.
  - assert (He : fifo_empty f = true).
    { destruct (fifo_empty f) eqn:He; [reflexivity | exfalso].
      pose proof (not_empty_distance h f Hwf He).
      pose proof (fifo_contents_length h f). lia. }
    split; [reflexivity |]. exists f.
    destruct (fifo_contents h f); [auto | discriminate Hlen].
  - assert (Hne : fifo_empty f = false).
    { destruct (fifo_empty f) eqn:He; [exfalso | reflexivity].
      apply (empty_counters h f Hwf) in He.
      rewrite (fifo_contents_empty h f He) in Hlen. discriminate Hlen. }
    destruct (fifo_pop_contents h k Hh f Hwf Hne)
      as (v & f1 & Hpop & Hwf1 & _ & Hc).
    destruct (fifo_pop_not_empty h k Hh f Hwf Hne) as (v' & _ & Hpop').
    assert (Hf1 : write f1 = write f /\ buf f1 = buf f).
    { rewrite Hpop in Hpop'. injection Hpop' as _ ->. auto. }
    destruct (IH f1 Hwf1) as (Hresp & f' & Hexec & He' & Hw' & Hb').
    { rewrite Hc in Hlen. simpl in Hlen. lia. }
    simpl. rewrite Hne, Hpop. simpl. split; [exact Hresp |].
    exists f'. rewrite Hexec, Hc. destruct Hf1 as [Hw1 Hb1].
    repeat split; congruence.
Qed.

(** X7: nothing stays behind in a fifo of at most 32768 bytes.  After any
    pushes and pops made under their preconditions on a fifo that was
    empty, one pop for every byte pushed and not yet popped finds
    [fifo_empty] false each time and returns; together the pops return
    those bytes in the order they were pushed and leave the fifo empty.
    This holds also where [fifo_full] is true with room left. *)
Theorem fifo_drain `{Target} (h : fifo_handle) (k : Z) (f0 : fifo)
    (ops : list op) :
  pow2_handle h k -> k <= 15 ->
  fifo_wf h f0 -> fifo_empty f0 = true ->
  respects h f0 ops = true ->
  exists f out,
    exec h f0 ops = Returned (f, out) /\
    respects h f (repeat Pop (length (pushed ops) - length out)) = true /\
    exists f',
      exec h f (repeat Pop (length (pushed ops) - length out)) =
      Returned (f', drop (length out) (pushed ops)) /\
      fifo_empty f' = true.
Proof.
  intros Hh Hk Hwf He Hresp.
  destruct (empty_fifo_inv h k Hh f0 Hwf He) as [Hinv Hnil].
  destruct (exec_contents h k Hh ops Hk f0 Hinv Hresp)
    as (f & out & Hexec & [Hwf' _] & Hc).
  rewrite Hnil in Hc. simpl in Hc.
  exists f, out. split; [exact Hexec |].
  assert (Hn : (length (pushed ops) - length out)%nat =
               length (fifo_contents h f)).
  { rewrite Hc, length_app. lia. }
  assert (Hd : drop (length out) (pushed ops) = fifo_contents h f).
  { rewrite Hc. apply drop_app_length. }
  rewrite Hn, Hd.
  destruct (exec_drain h k (length (fifo_contents h f)) Hh f Hwf' eq_refl)
    as (Hr & f' & Hex & He' & _).
  split; [exact Hr |]. exists f'. split; [exact Hex | exact He'].
Qed.

(** Two bytes pushed into a capacity-8 fifo whose counters start at 65534:
    [fifo_full] is then true, and two pops return the two bytes. *)
Lemma fifo_drain_witness :
  let f0 := fifo_empty_at 65534 8 in
  let ops := [Push Byte.x01; Push Byte.x02] in
  @pow2_handle ilp32_assert handle8 3 /\
  @fifo_wf ilp32_assert handle8 f0 /\
  @fifo_empty ilp32_assert f0 = true /\
  @respects ilp32_assert handle8 f0 ops = true /\
  exists f,
    @exec ilp32_assert handle8 f0 ops = Returned (f, []) /\
    @fifo_full ilp32_assert handle8 f = true /\
    exists f',
      @exec ilp32_assert handle8 f [Pop; Pop] =
      Returned (f', [Byte.x01; Byte.x02]) /\
      @fifo_empty ilp32_assert f' = true.
Proof.
  intros f0 ops.
  assert (Hwf : @fifo_wf ilp32_assert handle8 f0)
    by (repeat split; vm_compute; congruence).
  split; [exact handle8_pow2 |]. split; [exact Hwf |].
  split; [reflexivity |]. split; [reflexivity |].
  destruct (@fifo_drain ilp32_assert handle8 3 f0 ops
              handle8_pow2 ltac:(lia) Hwf eq_refl eq_refl)
    as (f & out & Hexec & _ & f' & Hdrain & He).
  pose proof Hexec as Hrun. vm_compute in Hrun.
  injection Hrun as Hf Hout. subst out.
  exists f. split; [exact Hexec |]. split; [now subst f |].
  exists f'. split; [exact Hdrain | exact He].
Defined.

(** X8: a run that respects the callers' discipline, started in any state
    of a fifo of at most 32768 bytes that holds no more than its capacity,
    returns and ends in such a state; what was buffered followed by what
    was pushed is what was popped followed by what is buffered. *)
Theorem fifo_run_invariant `{Target} (h : fifo_handle) (k : Z) (f : fifo)
    (ops : list op) :
  pow2_handle h k -> k <= 15 -> fifo_inv h f ->
  respects h f ops = true ->
  exists f' out,
    exec h f ops = Returned (f', out) /\
    fifo_inv h f' /\
    Z.of_nat (length (fifo_contents h f')) <= fifo_capacity h /\
    length (buf f') = length (buf f) /\
    fifo_contents h f ++ pushed ops = out ++ fifo_contents h f'.
Proof.
  intros Hh Hk Hinv Hresp.
  destruct (exec_contents h k Hh ops Hk f Hinv Hresp)
    as (f' & out & Hexec & Hinv' & Hc).
  exists f', out. split; [exact Hexec |]. split; [exact Hinv' |].
  split; [| split; [| exact Hc]].
  - rewrite fifo_contents_length. apply Hinv'.
  - destruct Hinv as [(_ & _ & Hl) _]. destruct Hinv' as [(_ & _ & Hl') _].
    lia.
Qed.

(** A run from the capacity-8 state holding two bytes. *)
Lemma fifo_run_invariant_witness :
  let ops := [Pop; Push Byte.x2a; Pop; Push Byte.x2b] in
  @pow2_handle ilp32_assert handle8 3 /\
  @fifo_inv ilp32_assert handle8 fifo8_two /\
  @respects ilp32_assert handle8 fifo8_two ops = true /\
  exists f',
    @exec ilp32_assert handle8 fifo8_two ops =
    Returned (f', [Byte.x11; Byte.x12]) /\
    fifo_contents handle8 f' = [Byte.x2a; Byte.x2b].
Proof.
  intros ops.
  assert (Hinv : @fifo_inv ilp32_assert handle8 fifo8_two).
  { split; [exact fifo8_two_wf | vm_compute; congruence]. }
  split; [exact handle8_pow2 |]. split; [exact Hinv |].
  split; [reflexivity |].
  destruct (@fifo_run_invariant ilp32_assert handle8 3 fifo8_two ops
              handle8_pow2 ltac:(lia) Hinv eq_refl)
    as (f' & out & Hexec & _ & _ & _ & Hc).
  exists f'. pose proof Hexec as Hrun. vm_compute in Hrun.
  injection Hrun as Hf' Hout. subst out. split; [exact Hexec |].
  change (pushed ops) with [Byte.x2a; Byte.x2b] in Hc.
  change (fifo_contents handle8 fifo8_two) with [Byte.x11; Byte.x12] in Hc.
  simpl in Hc. injection Hc as Hc. symmetry. exact Hc.
Defined.

(** * Calls outside their precondition, assertions compiled out *)

(** In a fifo holding as many bytes as its capacity the next push goes to
    the slot of the oldest byte. *)
Lemma full_write_slot `{Target} (h : fifo_handle) (k : Z) (f : fifo) :
  pow2_handle h k -> k <= 16 ->
  to_u16 (write f - read f) = fifo_capacity h ->
  Z.land (write f) (capacity_mask h) = Z.land (read f) (capacity_mask h).
Proof.
  intros Hh Hk Hd. rewrite !(mask_mod h k Hh).
  rewrite (pow2_handle_capacity h k Hh) in Hd.
  pose proof Hh as [[Hk0 _] _].
  assert (Hpos : 0 < 2 ^ k) by (apply Z.pow_pos_nonneg; lia).
  assert (Hz : (write f - read f) mod 2 ^ k = 0).
  { rewrite <- (Z.mod_mod_divide _ (2 ^ 16)) by now apply (pow2_divides_u16 h).
    unfold to_u16 in Hd. rewrite Hd. apply Z.mod_same. lia. }
  apply Z.mod_divide in Hz; [| lia]. destruct Hz as [q Hq].
  replace (write f) with (read f + q * 2 ^ k) by lia.
  apply Z_mod_plus_full.
Qed.

(** X9: with assertions compiled out, a push into a fifo of at most 32768
    bytes that holds as many bytes as its capacity returns and overwrites
    the oldest buffered byte: the byte pushed is now what [fifo_peek] shows
    and stands at both ends of the buffered bytes, one more than the
    storage holds. *)
Theorem fifo_push_full_overwrites `{Target} (h : fifo_handle) (k : Z)
    (f : fifo) (v : u8_t) :
  CONFIG_ASSERT = false ->
  pow2_handle h k -> k <= 15 -> fifo_wf h f ->
  to_u16 (write f - read f) = fifo_capacity h ->
  exists f' old rest,
    fifo_contents h f = old :: rest /\
    fifo_push h f v = Returned f' /\
    fifo_contents h f' = v :: rest ++ [v] /\
    fifo_peek h f' = Returned (v, f').
Proof.
  intros Ha Hh Hk Hwf Hd.
  pose proof (capacity_le_pow h k Hh 15 Hk) as Hcap.
  change (2 ^ 15) with 32768 in Hcap.
  pose proof (capacity_pos h k Hh) as Hpos.
  pose proof Hwf as (Hw & Hr & Hlen).
  pose proof (pow2_handle_index h k (read f) Hh) as Hidx.
  pose proof (full_write_slot h k f Hh ltac:(lia) Hd) as Hslot.
  set (C := fifo_capacity h) in *.
  assert (Hpush : fifo_push h f v =
    Returned {| write := to_u16 (write f + 1); read := read f;
                buf := <[Z.to_nat (Z.land (read f) (capacity_mask h)) := v]>
                         (buf f) |}).
  { unfold fifo_push, __ASSERT. rewrite Ha. simpl.
    rewrite (wf_store h f k (write f) v Hh Hwf), Hslot. reflexivity. }
  set (b' := <[Z.to_nat (Z.land (read f) (capacity_mask h)) := v]> (buf f))
    in *.
  assert (Hd' : to_u16 (to_u16 (write f + 1) - read f) = C + 1).
  { unfold to_u16. rewrite Zminus_mod_idemp_l.
    replace (write f + 1 - read f) with (write f - read f + 1) by lia.
    rewrite <- Zplus_mod_idemp_l. fold (to_u16 (write f - read f)).
    rewrite Hd. apply Z.mod_small. change (2 ^ 16) with 65536. lia. }
  assert (Hhead : load b' (Z.land (read f) (capacity_mask h)) = Some v).
  { unfold load, b'. apply list_lookup_insert_eq. lia. }
  assert (Hmid :
    take_from h b' (to_u16 (read f + 1)) (Z.to_nat (C - 1)) =
    take_from h (buf f) (to_u16 (read f + 1)) (Z.to_nat (C - 1))).
  { apply (take_from_insert h k Hh); [lia |]. intros i Hi Heq.
    rewrite (mask_to_u16_add h k Hh) in Heq by lia.
    apply Z2Nat.inj in Heq.
    - symmetry in Heq. revert Heq.
      replace (read f) with (read f + 0) at 1 by lia.
      replace (read f + 1 + Z.of_nat i) with (read f + (1 + Z.of_nat i))
        by lia.
      apply (mask_distinct h k Hh); fold C; lia.
    - apply (pow2_handle_index h k _ Hh).
    - lia. }
  assert (Hlast :
    load b' (Z.land (to_u16 (read f + 1) + Z.of_nat (Z.to_nat (C - 1)))
               (capacity_mask h)) = Some v).
  { rewrite (mask_to_u16_add h k Hh) by lia. rewrite Z2Nat.id by lia.
    replace (read f + 1 + (C - 1)) with (read f + 1 * C) by lia.
    rewrite !(mask_mod h k Hh). unfold C.
    rewrite (pow2_handle_capacity h k Hh), Z_mod_plus_full.
    rewrite <- (mask_mod h k Hh). exact Hhead. }
  eexists. exists (default Byte.x00 (load (buf f)
                     (Z.land (read f) (capacity_mask h)))).
  exists (take_from h (buf f) (to_u16 (read f + 1)) (Z.to_nat (C - 1))).
  split; [| split; [exact Hpush | split]].
  - unfold fifo_contents. rewrite Hd.
    replace (Z.to_nat C) with (S (Z.to_nat (C - 1))) by lia. reflexivity.
  - unfold fifo_contents. simpl write. simpl read. simpl buf. rewrite Hd'.
    replace (Z.to_nat (C + 1)) with (S (S (Z.to_nat (C - 1)))) by lia.
    change (take_from h b' (read f) (S (S (Z.to_nat (C - 1))))) with
      (default Byte.x00 (load b' (Z.land (read f) (capacity_mask h)))
         :: take_from h b' (to_u16 (read f + 1)) (S (Z.to_nat (C - 1)))).
    rewrite (take_from_snoc h k Hh) by lia.
    rewrite Hhead, Hlast, Hmid. reflexivity.
  - unfold fifo_peek, __ASSERT. rewrite Ha. simpl. now rewrite Hhead.
Qed.

(** A ninth byte pushed into a capacity-8 fifo holding [0x10] to [0x17]. *)
Lemma fifo_push_full_overwrites_witness :
  let f := {| write := 8; read := 0; buf := buf fifo8_two |} in
  @pow2_handle ilp32_noassert handle8 3 /\
  @fifo_wf ilp32_noassert handle8 f /\
  fifo_contents handle8 f =
    [Byte.x10; Byte.x11; Byte.x12; Byte.x13;
     Byte.x14; Byte.x15; Byte.x16; Byte.x17] /\
  exists f',
    @fifo_push ilp32_noassert handle8 f Byte.x2a = Returned f' /\
    fifo_contents handle8 f' =
      [Byte.x2a; Byte.x11; Byte.x12; Byte.x13;
       Byte.x14; Byte.x15; Byte.x16; Byte.x17; Byte.x2a] /\
    @fifo_peek ilp32_noassert handle8 f' = Returned (Byte.x2a, f').
Proof.
  intros f.
  assert (Hwf : @fifo_wf ilp32_noassert handle8 f)
    by (repeat split; vm_compute; congruence).
  split; [exact handle8_pow2 |]. split; [exact Hwf |].
  split; [reflexivity |].
  destruct (@fifo_push_full_overwrites ilp32_noassert handle8 3 f Byte.x2a
              eq_refl handle8_pow2 ltac:(lia) Hwf eq_refl)
    as (f' & old & rest & Hc & Hpush & Hc' & Hpeek).
  exists f'. split; [exact Hpush |]. split; [| exact Hpeek].
  rewrite Hc'. vm_compute in Hc. injection Hc as _ <-. reflexivity.
Defined.

(** X10: with assertions compiled out, a pop from an empty fifo of at most
    32768 bytes returns the byte lying at the read offset and advances
    [read] past [write]; the fifo then tests not empty and full, with
    65535 bytes counted as buffered. *)
Theorem fifo_pop_empty_underruns `{Target} (h : fifo_handle) (k : Z)
    (f : fifo) :
  CONFIG_ASSERT = false ->
  pow2_handle h k -> k <= 15 -> fifo_wf h f -> fifo_empty f = true ->
  exists v f',
    load (buf f) (Z.land (read f) (capacity_mask h)) = Some v /\
    fifo_pop h f = Returned (v, f') /\
    write f' = write f /\ read f' = to_u16 (read f + 1) /\
    buf f' = buf f /\
    fifo_empty f' = false /\
    fifo_full h f' = true /\
    Z.of_nat (length (fifo_contents h f')) = 65535.
Proof.
  intros Ha Hh Hk Hwf He.
  apply (empty_counters h f Hwf) in He.
  pose proof (capacity_le_pow h k Hh 15 Hk) as Hcap.
  change (2 ^ 15) with 32768 in Hcap.
  pose proof Hwf as (Hw & Hr & Hlen). change (2 ^ 16) with 65536 in Hw, Hr.
  pose proof size_pow_ge as Hsz.
  destruct (wf_load h f k (read f) Hh Hwf) as [v Hv].
  pose proof (to_u16_range (read f + 1)) as Hr1.
  set (f' := {| write := write f; read := to_u16 (read f + 1);
                buf := buf f |}).
  assert (Hwf' : fifo_wf h f').
  { split; [| split]; simpl; change (2 ^ 16) with 65536; lia. }
  assert (Hcases :
    (read f < 65535 /\ to_u16 (read f + 1) = read f + 1) \/
    (read f = 65535 /\ to_u16 (read f + 1) = 0)).
  { unfold to_u16. change (2 ^ 16) with 65536.
    destruct (Z.eq_dec (read f) 65535) as [-> | Hne].
    - right. split; reflexivity.
    - left. split; [lia |]. apply Z.mod_small. lia. }
  exists v, f'. split; [exact Hv |]. split.
  { unfold fifo_pop, __ASSERT. rewrite Ha. simpl. now rewrite Hv. }
  split; [reflexivity |]. split; [reflexivity |]. split; [reflexivity |].
  split; [| split].
  - destruct (fifo_empty f') eqn:He'; [exfalso | reflexivity].
    apply (empty_counters h f' Hwf') in He'. simpl in He'.
    destruct Hcases as [[Hlt Hc] | [Hmax Hc]]; rewrite Hc in He'; lia.
  - unfold fifo_full. apply Z.leb_le.
    destruct Hcases as [[Hlt Hc] | [Hmax Hc]].
    + rewrite fifo_used_lt by (simpl; lia). simpl. lia.
    + rewrite fifo_used_ge by (simpl; lia). simpl. lia.
  - rewrite fifo_contents_length. simpl. unfold to_u16 at 1.
    unfold to_u16. rewrite Zminus_mod_idemp_r.
    replace (write f - (read f + 1)) with (-1) by lia. reflexivity.
Qed.

(** A pop from the zeroed capacity-8 fifo. *)
Lemma fifo_pop_empty_underruns_witness :
  @pow2_handle ilp32_noassert handle8 3 /\
  @fifo_wf ilp32_noassert handle8 (fifo_zeroed 8) /\
  @fifo_empty ilp32_noassert (fifo_zeroed 8) = true /\
  exists f',
    @fifo_pop ilp32_noassert handle8 (fifo_zeroed 8) =
    Returned (Byte.x00, f') /\
    @fifo_empty ilp32_noassert f' = false /\
    @fifo_full ilp32_noassert handle8 f' = true.
Proof.
  assert (Hwf : @fifo_wf ilp32_noassert handle8 (fifo_zeroed 8))
    by (repeat split; vm_compute; congruence).
  split; [exact handle8_pow2 |]. split; [exact Hwf |].
  split; [reflexivity |].
  destruct (@fifo_pop_empty_underruns ilp32_noassert handle8 3 (fifo_zeroed 8)
              eq_refl handle8_pow2 ltac:(lia) Hwf eq_refl)
    as (v & f' & Hv & Hpop & _ & _ & _ & He & Hfull & _).
  assert (v = Byte.x00) by (vm_compute in Hv; congruence). subst v.
  exists f'. auto.
Defined.

(** * Producer and consumer *)

(** X11: on a fifo of at most 32768 bytes that is neither full nor empty a
    push and a pop commute: the pop returns the same byte before and after
    the push, both calls return in either order, and the two orders end in
    the same fifo. *)
Theorem fifo_push_pop_commute `{Target} (h : fifo_handle) (k : Z) (f : fifo)
    (v : u8_t) :
  pow2_handle h k -> k <= 15 -> fifo_wf h f ->
  fifo_full h f = false -> fifo_empty f = false ->
  exists b f1 f2 f3,
    fifo_push h f v = Returned f1 /\ fifo_pop h f1 = Returned (b, f3) /\
    fifo_pop h f = Returned (b, f2) /\ fifo_push h f2 v = Returned f3.
Proof.
  intros Hh Hk Hwf Hfull Hne.
  destruct (not_full_counters h k Hh f Hk Hwf Hfull) as [Hle Hlt].
  assert (Hneq : write f <> read f).
  { intros Heq. apply (empty_counters h f Hwf) in Heq. congruence. }
  pose proof (capacity_le_pow h k Hh 15 Hk) as Hcap.
  change (2 ^ 15) with 32768 in Hcap.
  pose proof Hwf as (Hw & Hr & Hlen). change (2 ^ 16) with 65536 in Hw, Hr.
  pose proof (fifo_push_not_full h k Hh f v Hwf Hfull) as Hpush.
  destruct (fifo_pop_not_empty h k Hh f Hwf Hne) as (b & Hload & Hpop).
  set (f1 := {| write := to_u16 (write f + 1); read := read f;
                buf := <[Z.to_nat (Z.land (write f) (capacity_mask h)) := v]>
                         (buf f) |}) in *.
  set (f2 := {| write := write f; read := to_u16 (read f + 1);
                buf := buf f |}) in *.
  pose proof (to_u16_range (write f + 1)) as Hw1.
  assert (Hr2 : to_u16 (read f + 1) = read f + 1).
  { unfold to_u16. apply Z.mod_small. change (2 ^ 16) with 65536. lia. }
  assert (Hwf1 : fifo_wf h f1).
  { split; [| split]; simpl; try (change (2 ^ 16) with 65536; lia).
    now rewrite length_insert. }
  assert (Hwf2 : fifo_wf h f2).
  { split; [| split]; simpl; change (2 ^ 16) with 65536; lia. }
  assert (Hne1 : fifo_empty f1 = false).
  { destruct (fifo_empty f1) eqn:He1; [exfalso | reflexivity].
    apply (empty_counters h f1 Hwf1) in He1. simpl in He1.
    unfold to_u16 in He1. change (2 ^ 16) with 65536 in He1.
    destruct (Z.eq_dec (write f) 65535) as [Hmax | Hmax].
    - rewrite Hmax in He1. change ((65535 + 1) mod 65536) with 0 in He1. lia.
    - rewrite Z.mod_small in He1 by lia. lia. }
  assert (Hfull2 : fifo_full h f2 = false).
  { unfold fifo_full. apply Z.leb_gt.
    rewrite fifo_used_ge by (simpl; lia). simpl. lia. }
  destruct (fifo_pop_not_empty h k Hh f1 Hwf1 Hne1) as (b1 & Hload1 & Hpop1).
  pose proof (fifo_push_not_full h k Hh f2 v Hwf2 Hfull2) as Hpush2.
  assert (Hb : b1 = b).
  { simpl in Hload1. unfold load in Hload1, Hload.
    rewrite list_lookup_insert_ne in Hload1; [congruence |].
    intros Heq. apply Z2Nat.inj in Heq.
    - symmetry in Heq. revert Heq.
      replace (read f) with (read f + 0) at 1 by lia.
      replace (write f) with (read f + (write f - read f)) at 1 by lia.
      apply (mask_distinct h k Hh); lia.
    - apply (pow2_handle_index h k _ Hh).
    - apply (pow2_handle_index h k _ Hh). }
  subst b1.
  exists b, f1, f2. eexists.
  split; [exact Hpush |]. split; [exact Hpop1 |]. split; [exact Hpop |].
  rewrite Hpush2. reflexivity.
Qed.

(** Both orders on the capacity-8 state holding two bytes. *)
Lemma fifo_push_pop_commute_witness :
  @pow2_handle ilp32_assert handle8 3 /\
  @fifo_wf ilp32_assert handle8 fifo8_two /\
  @fifo_full ilp32_assert handle8 fifo8_two = false /\
  @fifo_empty ilp32_assert fifo8_two = false /\
  exists f1 f2 f3,
    @fifo_push ilp32_assert handle8 fifo8_two Byte.x2a = Returned f1 /\
    @fifo_pop ilp32_assert handle8 f1 = Returned (Byte.x11, f3) /\
    @fifo_pop ilp32_assert handle8 fifo8_two = Returned (Byte.x11, f2) /\
    @fifo_push ilp32_assert handle8 f2 Byte.x2a = Returned f3.
Proof.
  split; [exact handle8_pow2 |]. split; [exact fifo8_two_wf |].
  split; [reflexivity |]. split; [reflexivity |].
  destruct (@fifo_push_pop_commute ilp32_assert handle8 3 fifo8_two Byte.x2a
              handle8_pow2 ltac:(lia) fifo8_two_wf eq_refl eq_refl)
    as (b & f1 & f2 & f3 & Hpush & Hpop1 & Hpop & Hpush2).
  assert (Hb : b = Byte.x11) by (vm_compute in Hpop; congruence).
  subst b. exists f1, f2, f3. auto.
Defined.

(** * Handles and their copies *)

Lemma mem_set_same (m : memory) (x : string) (f : fifo) :
  mem_set m x f x = f.
Proof. unfold mem_set. now rewrite String.eqb_refl. Qed.

Lemma mem_set_other (m : memory) (x y : string) (f : fifo) :
  y <> x -> mem_set m x f y = m y.
Proof.
  intros Hne. unfold mem_set.
  destruct (String.eqb_spec y x); [contradiction | reflexivity].
Qed.

(** A byte pushed through one handle into an empty fifo is popped through
    any handle with the same pointer and mask; other fifo objects are left
    alone. *)
Lemma fifo_push_pop_at `{Target} (hp hc : fifo_handle_refs) (k : Z)
    (m : memory) (v : u8_t) (other : string) :
  fifo_ref hc = fifo_ref hp -> masks hc = masks hp ->
  pow2_handle (masks hp) k ->
  fifo_wf (masks hp) (m (fifo_ref hp)) ->
  fifo_empty (m (fifo_ref hp)) = true ->
  other <> fifo_ref hp ->
  exists m1 m2,
    fifo_push_at hp m v = Returned m1 /\
    fifo_pop_at hc m1 = Returned (v, m2) /\
    fifo_empty (m2 (fifo_ref hp)) = true /\
    m1 other = m other /\ m2 other = m other.
Proof.
  intros Href Hmask Hh Hwf He Hother.
  destruct (push_peek_pop_empty (masks hp) k (m (fifo_ref hp)) v Hh Hwf He)
    as (f1 & f2 & Hpush & _ & Hpop & He2 & _).
  exists (mem_set m (fifo_ref hp) f1).
  exists (mem_set (mem_set m (fifo_ref hp) f1) (fifo_ref hp) f2).
  split; [| split; [| split; [| split]]].
  - unfold fifo_push_at. now rewrite Hpush.
  - unfold fifo_pop_at. rewrite Href, Hmask, mem_set_same, Hpop. reflexivity.
  - now rewrite mem_set_same.
  - now apply mem_set_other.
  - rewrite !mem_set_other by exact Hother. reflexivity.
Qed.

(** X12: in the object [UART_BUFFERED_DEFINE] makes over two distinct
    power-of-two fifos, the handle [uart_buffered_rx_handle] returns is a
    copy onto the kernel's receive fifo and the one
    [uart_buffered_tx_handle] returns a copy onto its transmit fifo: a byte
    pushed through the kernel's receive handle into the empty receive fifo
    is popped through the copy, a byte pushed through the transmit copy is
    popped through the kernel's transmit handle, and neither exchange
    touches the other fifo. *)
Theorem uart_buffered_handles_alias `{Target} (name rx_name tx_name : string)
    (krx ktx : Z) (m : memory) (v : u8_t) :
  0 <= krx -> offsetof_fifo_buf + 2 ^ krx < 2 ^ size_bits ->
  0 <= ktx -> offsetof_fifo_buf + 2 ^ ktx < 2 ^ size_bits ->
  rx_name <> tx_name ->
  fifo_wf (FIFO_INITIALIZER (offsetof_fifo_buf + 2 ^ krx)) (m rx_name) ->
  fifo_empty (m rx_name) = true ->
  fifo_wf (FIFO_INITIALIZER (offsetof_fifo_buf + 2 ^ ktx)) (m tx_name) ->
  fifo_empty (m tx_name) = true ->
  (exists m1 m2,
     fifo_push_at
       (rx_fifo (rx (UART_BUFFERED_DEFINE name
                       rx_name (offsetof_fifo_buf + 2 ^ krx)
                       tx_name (offsetof_fifo_buf + 2 ^ ktx)))) m v
     = Returned m1 /\
     fifo_pop_at
       (rx_handle_fifo
          (uart_buffered_rx_handle
             (UART_BUFFERED_DEFINE name
                rx_name (offsetof_fifo_buf + 2 ^ krx)
                tx_name (offsetof_fifo_buf + 2 ^ ktx)))) m1
     = Returned (v, m2) /\
     fifo_empty (m2 rx_name) = true /\ m2 tx_name = m tx_name) /\
  (exists m1 m2,
     fifo_push_at
       (tx_handle_fifo
          (uart_buffered_tx_handle
             (UART_BUFFERED_DEFINE name
                rx_name (offsetof_fifo_buf + 2 ^ krx)
                tx_name (offsetof_fifo_buf + 2 ^ ktx)))) m v
     = Returned m1 /\
     fifo_pop_at
       (tx_fifo (tx (UART_BUFFERED_DEFINE name
                       rx_name (offsetof_fifo_buf + 2 ^ krx)
                       tx_name (offsetof_fifo_buf + 2 ^ ktx)))) m1
     = Returned (v, m2) /\
     fifo_empty (m2 tx_name) = true /\ m2 rx_name = m rx_name).
Proof.
  intros Hkr Hfr Hkt Hft Hne Hwfr Her Hwft Het.
  pose proof (FIFO_DEFINE_pow2_handle krx Hkr Hfr) as Hhr.
  pose proof (FIFO_DEFINE_pow2_handle ktx Hkt Hft) as Hht.
  split.
  - destruct (fifo_push_pop_at
                (FIFO_INITIALIZER_refs rx_name (offsetof_fifo_buf + 2 ^ krx)
                   (RxSignal name))
                (FIFO_INITIALIZER_refs rx_name (offsetof_fifo_buf + 2 ^ krx)
                   (RxSignal name))
                krx m v tx_name eq_refl eq_refl Hhr Hwfr Her)
      as (m1 & m2 & Hpush & Hpop & He & _ & Hother).
    + simpl. congruence.
    + exists m1, m2. auto.
  - destruct (fifo_push_pop_at
                (FIFO_INITIALIZER_refs tx_name (offsetof_fifo_buf + 2 ^ ktx)
                   (TxSignal name))
                (FIFO_INITIALIZER_refs tx_name (offsetof_fifo_buf + 2 ^ ktx)
                   (TxSignal name))
                ktx m v rx_name eq_refl eq_refl Hht Hwft Het Hne)
      as (m1 & m2 & Hpush & Hpop & He & _ & Hother).
    exists m1, m2. auto.
Qed.

(** A receive fifo of 8 bytes and a transmit fifo of 4, both zeroed. *)
Lemma uart_buffered_handles_alias_witness :
  let uart := @UART_BUFFERED_DEFINE ilp32_assert "uart0" "rx_buf" 12
                "tx_buf" 8 in
  let m : memory :=
    fun x => if String.eqb x "rx_buf" then fifo_zeroed 8 else fifo_zeroed 4 in
  (exists m1 m2,
     @fifo_push_at ilp32_assert (rx_fifo (rx uart)) m Byte.x2a = Returned m1 /\
     @fifo_pop_at ilp32_assert
       (rx_handle_fifo (uart_buffered_rx_handle uart)) m1
     = Returned (Byte.x2a, m2) /\
     m2 "tx_buf"%string = m "tx_buf"%string) /\
  (exists m1 m2,
     @fifo_push_at ilp32_assert
       (tx_handle_fifo (uart_buffered_tx_handle uart)) m Byte.x2a
     = Returned m1 /\
     @fifo_pop_at ilp32_assert (tx_fifo (tx uart)) m1
     = Returned (Byte.x2a, m2) /\
     m2 "rx_buf"%string = m "rx_buf"%string).
Proof.
  intros uart m.
  destruct (@uart_buffered_handles_alias ilp32_assert "uart0" "rx_buf"
              "tx_buf" 3 2 m Byte.x2a) as [Hrx Htx].
  - lia.
  - vm_compute. reflexivity.
  - lia.
  - vm_compute. reflexivity.
  - discriminate.
  - repeat split; vm_compute; congruence.
  - reflexivity.
  - repeat split; vm_compute; congruence.
  - reflexivity.
  - split.
    + destruct Hrx as (m1 & m2 & Hpush & Hpop & _ & Hother).
      exists m1, m2. auto.
    + destruct Htx as (m1 & m2 & Hpush & Hpop & _ & Hother).
      exists m1, m2. auto.
Defined.
